(** * ecs-go: a shallow embedding of the dispatch engine of [ecs.go]

    The development follows the layout of the Go source:

    - [Reflect]: the fragment of Go's [reflect] package the library relies on
      (kinds, runtime types, assignability, zero values, reflected values);
    - [GoSlice]: Go slices as a backing array plus a length, with re-slicing
      and [append] written out, since [RemoveComponent], [RemoveObject] and
      the sweep of [System.tick] all depend on in-place updates of a backing
      array that a running [range] loop still reads;
    - the memory of a running program (object heap, backing arrays of the
      world's object collection, the process-wide entity counter) and a
      state-and-panic monad over it;
    - [Object], [World], [makeObjectIter] and [System.tick], function by
      function;
    - the worlds and systems of [ecs_test.go], and the vocabulary of the
      statements;
    - the theorems, then the tests run on the model and the theorems
      applied to the worlds of the tests.

    Conventions.  [None] in the monad is a Go run-time panic.  A cell of
    type [interface{}] or [*Object] is an [option]: [None] is [nil].  The
    read/write mutex of the world is not modelled: every function here is
    one uninterrupted sequential execution.  The backing arrays of the
    world's collection live in a store, because a sweep keeps reading the
    array it started on while a system may delete from it or replace it;
    the array of an object's components belongs to that object alone.  A
    system function may read and change the memory; the [OnError] callback
    only observes. *)

From Stdlib Require Import ZArith Lia Ascii.
From stdpp Require Import base option list strings numbers.

#[local] Set Warnings "-register-all".

Local Open Scope Z_scope.
Local Open Scope nat_scope.

(* ===================================================================== *)
(** ** The [reflect] fragment *)
(* ===================================================================== *)

Module Reflect.

(** [reflect.Kind], restricted to the kinds that occur. *)
Inductive Kind : Set :=
| Bool | Int | Int64 | Uint64 | String | Struct | Ptr | Interface | Func.

Definition Kind_eqb (a b : Kind) : bool :=
  match a, b with
  | Bool, Bool | Int, Int | Int64, Int64 | Uint64, Uint64
  | String, String | Struct, Struct | Ptr, Ptr
  | Interface, Interface | Func, Func => true
  | _, _ => false
  end.

(** The predeclared types that occur: [bool], [int], [int64], [uint64],
    [string]. *)
Inductive basic : Set := Tbool | Tint | Tint64 | Tuint64 | Tstring.

Definition basic_eqb (a b : basic) : bool :=
  match a, b with
  | Tbool, Tbool | Tint, Tint | Tint64, Tint64 | Tuint64, Tuint64
  | Tstring, Tstring => true
  | _, _ => false
  end.

Definition basic_kind (b : basic) : Kind :=
  match b with
  | Tbool => Bool | Tint => Int | Tint64 => Int64 | Tuint64 => Uint64
  | Tstring => String
  end.

(** Runtime types.  [Basic b] is a predeclared type; [Defined n u] is
    [type n u]; the other constructors are unnamed composite types.  Two
    [reflect.Type]s are [==] exactly when the terms are equal. *)
Inductive type : Type :=
| Basic (b : basic)
| Defined (name : string) (under : type)
| FuncOf (ins outs : list type)
| PtrTo (elem : type)
| StructOf (fields : list type)
| InterfaceOf (methods : list string).

Definition list_eqb {A} (eqb : A -> A -> bool) : list A -> list A -> bool :=
  fix go l l' :=
    match l, l' with
    | [], [] => true
    | x :: l, y :: l' => eqb x y && go l l'
    | _, _ => false
    end.

Fixpoint type_eqb (a b : type) {struct a} : bool :=
  match a, b with
  | Basic b, Basic b' => basic_eqb b b'
  | Defined n u, Defined n' u' => String.eqb n n' && type_eqb u u'
  | FuncOf i o, FuncOf i' o' => list_eqb type_eqb i i' && list_eqb type_eqb o o'
  | PtrTo e, PtrTo e' => type_eqb e e'
  | StructOf fs, StructOf fs' => list_eqb type_eqb fs fs'
  | InterfaceOf ms, InterfaceOf ms' => list_eqb String.eqb ms ms'
  | _, _ => false
  end.

(** [t.Kind()] *)
Fixpoint kind (t : type) : Kind :=
  match t with
  | Basic b => basic_kind b
  | Defined _ u => kind u
  | FuncOf _ _ => Func
  | PtrTo _ => Ptr
  | StructOf _ => Struct
  | InterfaceOf _ => Interface
  end.

Fixpoint underlying (t : type) : type :=
  match t with
  | Defined _ u => underlying u
  | _ => t
  end.

(** Predeclared and defined types have a name, composite literals do not. *)
Definition hasName (t : type) : bool :=
  match t with
  | Basic _ | Defined _ _ => true
  | _ => false
  end.

(** The signature of a type of kind [Func]: [t.In(i)] and [t.Out(i)].
    [NumIn] and [NumOut] panic on any other kind. *)
Definition signature (t : type) : option (list type * list type) :=
  match underlying t with
  | FuncOf ins outs => Some (ins, outs)
  | _ => None
  end.

Definition haveIdenticalUnderlyingType (T V : type) : bool :=
  match underlying T, underlying V with
  | InterfaceOf ms, InterfaceOf ms' =>
      match ms, ms' with [], [] => true | _, _ => false end
  | u, u' => type_eqb u u'
  end.

Definition directlyAssignable (T V : type) : bool :=
  if type_eqb T V then true
  else if (hasName T && hasName V) || negb (Kind_eqb (kind T) (kind V)) then false
  else haveIdenticalUnderlyingType T V.

(** Values as [reflect.Value] sees them: a type and a payload. *)
Inductive data : Type :=
| DNil
| DBool (b : bool)
| DInt (n : Z)
| DString (s : string)
| DStruct (fields : list data)
| DWorld                      (* the pointer to the world being run *)
| DFunc                       (* a function value built by MakeFunc *)
| DErr (msg : string).        (* a non-nil error *)

Record value : Type := Val { vtype : type; vdata : data }.

(** An [interface{}] cell; [None] is the nil interface.  A [reflect.Value]
    is modelled alike, [None] being the zero (invalid) [Value]. *)
Abbreviation iface := (option value) (only parsing).

(** [reflect.TypeOf(c)]; nil for the nil interface. *)
Definition TypeOf (c : iface) : option type := vtype <$> c.

Definition rtype_eqb (a b : option type) : bool :=
  match a, b with
  | Some a, Some b => type_eqb a b
  | None, None => true
  | _, _ => false
  end.

(** [reflect.Zero(t)] *)
Fixpoint zero_data (t : type) : data :=
  match t with
  | Basic Tbool => DBool false
  | Basic Tint | Basic Tint64 | Basic Tuint64 => DInt 0
  | Basic Tstring => DString EmptyString
  | Defined _ u => zero_data u
  | StructOf fs => DStruct (map zero_data fs)
  | FuncOf _ _ | PtrTo _ | InterfaceOf _ => DNil
  end.

Definition Zero (t : type) : value := Val t (zero_data t).

(** [v.IsNil()] for a value of interface, pointer or func kind. *)
Definition IsNil (v : value) : bool :=
  match vdata v with DNil => true | _ => false end.

(** [V.AssignableTo(T)].  [implements T V] says that the method set of [V]
    covers the interface type [T]; method sets are not part of the model,
    so it is a parameter. *)
Definition AssignableTo (implements : type -> type -> bool) (V T : type) : bool :=
  directlyAssignable T V || (Kind_eqb (kind T) Interface && implements T V).

End Reflect.
Import Reflect.

(* ===================================================================== *)
(** ** Go slices *)
(* ===================================================================== *)

Module GoSlice.
Section GoSlice.
Context {A : Type}.

(** A slice that starts at the first cell of its backing array: [arr] is
    the whole array (its length is the capacity), [len] the length. *)
Record slice : Type := Slice { arr : list A; len : nat }.

Definition cap (s : slice) : nat := length (arr s).

(** The elements a [range] over the slice would see. *)
Definition elems (s : slice) : list A := take (len s) (arr s).

(** [s[:j]]: allowed up to the capacity. *)
Definition slice_to (s : slice) (j : nat) : option slice :=
  if decide (j <= cap s) then Some (Slice (arr s) j) else None.

(** The elements of [s[i:]]: the low bound may not pass the length. *)
Definition slice_from (s : slice) (i : nat) : option (list A) :=
  if decide (i <= len s) then Some (drop i (elems s)) else None.

(** [append(s, xs...)].  In place when the capacity suffices, otherwise
    into a fresh array (the flag), whose capacity is at least what is
    needed; [growslice] is the runtime's growth policy, [zero] fills the
    spare cells. *)
Definition append (growslice : nat -> nat -> nat) (zero : A)
    (s : slice) (xs : list A) : slice * bool :=
  let n := len s + length xs in
  if decide (n <= cap s)
  then (Slice (take (len s) (arr s) ++ xs ++ drop n (arr s)) n, false)
  else (Slice (elems s ++ xs ++ replicate (max n (growslice (cap s) n) - n) zero) n,
        true).

(** [append(s[:i], s[i+1:]...)], the deletion idiom of the source. *)
Definition delete_at (growslice : nat -> nat -> nat) (zero : A)
    (s : slice) (i : nat) : option (slice * bool) :=
  hd ← slice_to s i;
  tl ← slice_from s (S i);
  Some (append growslice zero hd tl).
End GoSlice.
Arguments slice : clear implicits.
End GoSlice.
Import GoSlice.

(* ===================================================================== *)
(** ** The package-level variables of [ecs.go] *)
(* ===================================================================== *)

Definition errorType : type := Defined "error" (InterfaceOf ["Error"]).
Definition timeType : type := Defined "time.Time" (StructOf [Basic Tint64]).
Definition entityType : type := Defined "ecs.Entity" (Basic Tuint64).
Definition intType : type := Basic Tint.
Definition boolType : type := Basic Tbool.
Definition stringType : type := Basic Tstring.
Definition worldType : type := PtrTo (Defined "ecs.World" (StructOf [])).

(** [type Entity uint64] *)
Definition Entity : Type := Z.
Definition uint64_wrap (z : Z) : Z := (z mod 2 ^ 64)%Z.

(** [time.Time], as nanoseconds. *)
Definition Time : Type := Z.

Definition ValueOf_int (n : Z) : value := Val intType (DInt n).
Definition ValueOf_bool (b : bool) : value := Val boolType (DBool b).
Definition ValueOf_entity (e : Entity) : value := Val entityType (DInt e).
Definition ValueOf_time (now : Time) : value := Val timeType (DStruct [DInt now]).
Definition ValueOf_world : value := Val worldType DWorld.

(* ===================================================================== *)
(** ** Objects *)
(* ===================================================================== *)

(** [type Object struct { entity Entity; components []interface{} }].
    Every object owns the backing array of its components. *)
Record Object : Type := { entity : Entity; components : slice iface }.

Definition with_components (ob : Object) (cs : slice iface) : Object :=
  {| entity := entity ob; components := cs |}.

(** [ob.Components()] *)
Definition Components (ob : Object) : list iface := elems (components ob).

(** [ob.Component(component)]: the first component of the same runtime
    type, or nil. *)
Fixpoint Component_loop (t : option type) (cs : list iface) : iface :=
  match cs with
  | [] => None
  | c :: cs' => if rtype_eqb (TypeOf c) t then c else Component_loop t cs'
  end.

Definition Component (ob : Object) (component : iface) : iface :=
  Component_loop (TypeOf component) (elems (components ob)).

(** [ob.getComponentValue(t)]: [v.Type()] panics on a nil component. *)
Fixpoint getComponentValue_loop (t : type) (cs : list iface) : option iface :=
  match cs with
  | [] => Some None
  | c :: cs' =>
      v ← c;
      if type_eqb (vtype v) t then Some (Some v) else getComponentValue_loop t cs'
  end.

Definition getComponentValue (ob : Object) (t : type) : option iface :=
  getComponentValue_loop t (elems (components ob)).

Section Objects.
Variable growslice : nat -> nat -> nat.

(** [ob.AddComponent(component)] *)
Definition AddComponent (ob : Object) (component : iface) : Object :=
  with_components ob (append growslice None (components ob) [component]).1.

(** [ob.RemoveComponent(component)].  The [range] clause fixes the array
    and the number of iterations on entry; each iteration reads cell [i] of
    that array as it is then, after the deletions made so far. *)
Fixpoint RemoveComponent_loop (t : option type) (snap : list iface)
    (ixs : list nat) (cs : slice iface) : option (slice iface) :=
  match ixs with
  | [] => Some cs
  | i :: ixs' =>
      c ← snap !! i;
      if rtype_eqb (TypeOf c) t then
        match delete_at growslice None cs i with
        | Some (cs', fresh) =>
            RemoveComponent_loop t (if fresh : bool then snap else arr cs') ixs' cs'
        | None => None
        end
      else RemoveComponent_loop t snap ixs' cs
  end.

Definition RemoveComponent (ob : Object) (component : iface) : option Object :=
  with_components ob <$>
    RemoveComponent_loop (TypeOf component) (arr (components ob))
      (seq 0 (len (components ob))) (components ob).

End Objects.

(** [NewObject] stores the variadic slice as it is: length and capacity are
    the number of arguments. *)
Definition mkObject (e : Entity) (cs : list iface) : Object :=
  {| entity := e; components := Slice cs (length cs) |}.

(* ===================================================================== *)
(** ** Memory and the monad *)
(* ===================================================================== *)

(** A [*Object] is an address in the object heap. *)
Definition ptr : Type := nat.

(** The header of a [[]*Object] slice: the backing array it points to in
    the array store, and its length.  The capacity is the array's length. *)
Record header : Type := Header { h_arr : nat; h_len : nat }.

(** What a running program holds: the package counter [gid], the allocated
    objects, the backing arrays of the object collection, and the field
    [w.objects] of the world being run. *)
Record mem : Type := Mem {
  gid : Z;
  heap : list Object;
  arrays : list (list (option ptr));
  objects : header
}.

(** What the outside observes of a sweep: calls of the system function,
    calls of [w.OnError], and the lines handed to [log.Printf]. *)
Inductive event : Type :=
| EvCall (ob : option ptr) (args results : list value)
| EvOnError (name : string) (args : list iface) (err : data)
| EvLogSystemError (name : string) (err : data)
| EvLogIterFailed (err : string).

Record state : Type := State { st_mem : mem; st_trace : list event }.

(** State passing with panics. *)
Definition M (S A : Type) : Type := S -> option (A * S).

Definition retM {S A} (a : A) : M S A := fun s => Some (a, s).
Definition bindM {S A B} (m : M S A) (k : A -> M S B) : M S B :=
  fun s => match m s with Some (a, s') => k a s' | None => None end.
Definition panic {S A} : M S A := fun _ => None.
Definition getM {S} : M S S := fun s => Some (s, s).
Definition putM {S} (s : S) : M S unit := fun _ => Some (tt, s).
Definition try {S A} (o : option A) : M S A :=
  match o with Some a => retM a | None => panic end.

Notation "x <- m ;; k" := (bindM m (fun x => k))
  (at level 90, m at next level, right associativity).
Notation "m ;;; k" := (bindM m (fun _ => k))
  (at level 90, right associativity).

(** Code that only sees the memory, run inside a sweep. *)
Definition liftM {A} (m : M mem A) : M state A :=
  fun st => match m (st_mem st) with
            | Some (a, m') => Some (a, State m' (st_trace st))
            | None => None
            end.

Definition emit (e : event) : M state unit :=
  fun st => Some (tt, State (st_mem st) (st_trace st ++ [e])).

(** [*ob]: a nil pointer dereference panics. *)
Definition deref (ob : option ptr) : M mem Object :=
  m <- getM ;; p <- try ob ;; try (heap m !! p).

Definition set_heap (m : mem) (h : list Object) : mem :=
  Mem (gid m) h (arrays m) (objects m).

(** [ob.components = cs] *)
Definition set_components (ob : option ptr) (cs : slice iface) : M mem unit :=
  m <- getM ;; p <- try ob ;; o <- try (heap m !! p) ;;
  putM (set_heap m (<[p := with_components o cs]> (heap m))).

(** [l[i] = x], which panics out of range. *)
Definition store_at {A} (i : nat) (x : A) (l : list A) : option (list A) :=
  if decide (i < length l) then Some (<[i := x]> l) else None.

(** The slice a header denotes. *)
Definition load (m : mem) (h : header) : option (slice (option ptr)) :=
  a ← arrays m !! h_arr h; Some (Slice a (h_len h)).

(** [w.objects = s], where [s] came out of an [append] on the slice of
    header [h]: a fresh array is allocated, an old one updated in place. *)
Definition store_objects (m : mem) (h : header)
    (r : slice (option ptr) * bool) : mem :=
  if r.2
  then Mem (gid m) (heap m) (arrays m ++ [arr r.1])
           (Header (length (arrays m)) (len r.1))
  else Mem (gid m) (heap m) (<[h_arr h := arr r.1]> (arrays m))
           (Header (h_arr h) (len r.1)).

(** [NewObject(cs...)] *)
Definition NewObject (cs : list iface) : M mem (option ptr) :=
  m <- getM ;;
  let e := uint64_wrap (gid m + 1) in
  putM (Mem e (heap m ++ [mkObject e cs]) (arrays m) (objects m)) ;;;
  retM (Some (length (heap m))).

(* ===================================================================== *)
(** ** The world *)
(* ===================================================================== *)

(** A system.  [Func_type] is [reflect.TypeOf(s.Func)], [Func_name] what
    [runtime.FuncForPC] reports for it; the function itself receives the
    argument values and may read and change the memory (it may be handed
    the world).  [Ticker] lists the timestamps the channel delivers before
    it is closed. *)
Record System : Type := {
  Func_type : type;
  Func : list value -> M mem (list value);
  Func_name : string;
  Name : string;
  Ticker : option (list Time)
}.

(** The configuration of a world.  [OnError] tells whether the callback
    is set; the callback is an observer, its calls are recorded as
    [EvOnError]. *)
Record World : Type := { OnError : bool; systems : list System }.

Section World.
Variable implements : type -> type -> bool.
Variable growslice : nat -> nat -> nat.

(** [w.AddObject(ob)] *)
Definition AddObject (ob : option ptr) : M mem Entity :=
  m <- getM ;;
  s <- try (load m (objects m)) ;;
  putM (store_objects m (objects m) (append growslice None s [ob])) ;;;
  o <- deref ob ;;
  retM (entity o).

(** [w.GetObject(entity)] *)
Fixpoint GetObject_loop (e : Entity) (obs : list (option ptr)) : M mem (option ptr) :=
  match obs with
  | [] => retM None
  | ob :: obs' =>
      o <- deref ob ;;
      if (entity o =? e)%Z then retM ob else GetObject_loop e obs'
  end.

Definition GetObject (e : Entity) : M mem (option ptr) :=
  m <- getM ;;
  s <- try (load m (objects m)) ;;
  GetObject_loop e (elems s).

(** [w.RemoveObject(entity)]: the loop returns right after the deletion. *)
Fixpoint RemoveObject_loop (e : Entity) (i : nat) (obs : list (option ptr)) : M mem unit :=
  match obs with
  | [] => retM tt
  | ob :: obs' =>
      o <- deref ob ;;
      if (entity o =? e)%Z then
        m <- getM ;;
        s <- try (load m (objects m)) ;;
        r <- try (delete_at growslice None s i) ;;
        putM (store_objects m (objects m) r)
      else RemoveObject_loop e (S i) obs'
  end.

Definition RemoveObject (e : Entity) : M mem unit :=
  m <- getM ;;
  s <- try (load m (objects m)) ;;
  RemoveObject_loop e 0 (elems s).

(** [w.handleSystemError(name, args, err)] *)
Definition handleSystemError (w : World) (name : string) (args : list iface)
    (err : data) : M state unit :=
  if OnError w then emit (EvOnError name args err)
  else emit (EvLogSystemError name err).

(** [w.makeObjectIter(t)]: the function value, or the error. *)
Definition makeObjectIter (t : type) : option (value + string) :=
  sig ← signature t;
  let ins := sig.1 in
  let outs := sig.2 in
  if decide (1 < length ins)
  then Some (inr "invalid signature: at most one argument expected")
  else if decide (length outs < 2)
  then Some (inr "invalid signature: at least two return values expected")
  else
    lt ← list.last outs;
    if negb (Kind_eqb (kind lt) Bool)
    then Some (inr "invalid signature: last return value must be a boolean")
    else Some (inl (Val t DFunc)).

(** The body of the function value, on the memory it is called in.

    [objectIter_outs] is the loop over [out]; it answers [false] for
    [continue ol].  [idx] is [i + start]. *)
Fixpoint objectIter_outs (m : mem) (idx : nat) (ob : option ptr)
    (out : nat) (ots : list type) (results : list iface)
    : option (bool * list iface) :=
  match ots with
  | [] => Some (true, results)
  | ot :: ots' =>
      if type_eqb ot intType then
        results' ← store_at out (Some (ValueOf_int (Z.of_nat idx))) results;
        objectIter_outs m idx ob (S out) ots' results'
      else if type_eqb ot entityType then
        o ← fst <$> deref ob m;
        results' ← store_at out (Some (ValueOf_entity (entity o))) results;
        objectIter_outs m idx ob (S out) ots' results'
      else
        o ← fst <$> deref ob m;
        c ← getComponentValue o ot;
        match c with
        | None => Some (false, results)
        | Some _ =>
            results' ← store_at out c results;
            objectIter_outs m idx ob (S out) ots' results'
        end
  end.

(** The closing loop, taken when no object was found. *)
Fixpoint objectIter_notfound (n : nat) (out : nat) (ots : list type)
    (results : list iface) : option (list iface) :=
  match ots with
  | [] => Some results
  | ot :: ots' =>
      results' ← store_at out
        (Some (if type_eqb ot intType then ValueOf_int (Z.of_nat n) else Zero ot))
        results;
      objectIter_notfound n (S out) ots' results'
  end.

(** The loop over [w.objects[start:]]; [n] is [len(w.objects)]. *)
Fixpoint objectIter_objects (m : mem) (outs : list type) (n start i : nat)
    (obs : list (option ptr)) (results : list iface) : option (list iface) :=
  match obs with
  | [] => objectIter_notfound n 0 outs results
  | ob :: obs' =>
      match objectIter_outs m (i + start) ob 0 (take (length outs - 1) outs) results with
      | None => None
      | Some (true, results') =>
          if decide (length results' = 0) then None
          else store_at (length results' - 1) (Some (ValueOf_bool true)) results'
      | Some (false, results') =>
          objectIter_objects m outs n start (S i) obs' results'
      end
  end.

(** What [reflect.MakeFunc] does with the results of its closure: each
    must be a valid value assignable to the declared output type, and is
    returned at that type. *)
Fixpoint MakeFunc_return (outs : list type) (results : list iface)
    : option (list value) :=
  match outs, results with
  | [], [] => Some []
  | typ :: outs', r :: results' =>
      v ← r;
      if AssignableTo implements (vtype v) typ
      then cons (Val typ (vdata v)) <$> MakeFunc_return outs' results'
      else None
  | _, _ => None
  end.

(** [start]: the argument when the single input is of kind [Int] (the type
    assertion to [int] panics on any other type of that kind), else [0]. *)
Definition objectIter_start (ins : list type) (args : list value) : option Z :=
  match ins with
  | [in0] =>
      if Kind_eqb (kind in0) Int then
        a ← args !! 0;
        if type_eqb in0 intType
        then match vdata a with DInt n => Some n | _ => None end
        else None
      else Some 0%Z
  | _ => Some 0%Z
  end.

Definition objectIter (t : type) (args : list value) (m : mem) : option (list value) :=
  sig ← signature t;
  let ins := sig.1 in
  let outs := sig.2 in
  let results := replicate (length outs) None in
  start ← objectIter_start ins args;
  s ← load m (objects m);
  if decide (0 <= start <= Z.of_nat (len s))%Z then
    results' ← objectIter_objects m outs (len s) (Z.to_nat start) 0
                 (drop (Z.to_nat start) (elems s)) results;
    MakeFunc_return outs results'
  else None.

(** [strings.LastIndex(name, ".")], and the name cut after it. *)
Fixpoint LastIndex_dot (name : string) (i : nat) (found : option nat) : option nat :=
  match name with
  | EmptyString => found
  | String.String c name' =>
      LastIndex_dot name' (S i) (if Ascii.eqb c "."%char then Some i else found)
  end.

Definition display_name (s : System) : string :=
  if String.eqb (Name s) EmptyString then
    match LastIndex_dot (Func_name s) 0 None with
    | Some dot =>
        String.substring (dot + 1) (String.length (Func_name s) - (dot + 1))
          (Func_name s)
    | None => Func_name s
    end
  else Name s.

(** [v.Interface()], which panics on the zero [Value]. *)
Definition Interface (v : iface) : option iface := x ← v; Some (Some x).

(** The scan of [ob.components] for a parameter of type [t];
    [cv.Type()] panics on a nil component. *)
Fixpoint tick_component (t : type) (cs : list iface) : option iface :=
  match cs with
  | [] => Some None
  | c :: cs' =>
      cv ← c;
      if AssignableTo implements (vtype cv) t then Some (Some cv)
      else tick_component t cs'
  end.

(** The loop [tl] over the parameter types.  It answers [false] for
    [continue ol]; [argValues] is the array shared by all iterations. *)
Fixpoint tick_args (now : Time) (ob : option ptr) (i : nat)
    (argTypes : list type) (argValues : list iface) : M state (bool * list iface) :=
  match argTypes with
  | [] => retM (true, argValues)
  | t :: ts =>
      if type_eqb t worldType then
        argValues' <- try (store_at i (Some ValueOf_world) argValues) ;;
        tick_args now ob (S i) ts argValues'
      else if type_eqb t entityType then
        o <- liftM (deref ob) ;;
        argValues' <- try (store_at i (Some (ValueOf_entity (entity o))) argValues) ;;
        tick_args now ob (S i) ts argValues'
      else if type_eqb t timeType then
        argValues' <- try (store_at i (Some (ValueOf_time now)) argValues) ;;
        tick_args now ob (S i) ts argValues'
      else if Kind_eqb (kind t) Reflect.Func then
        r <- try (makeObjectIter t) ;;
        match r with
        | inl v =>
            argValues' <- try (store_at i (Some v) argValues) ;;
            tick_args now ob (S i) ts argValues'
        | inr err =>
            argValues' <- try (store_at i None argValues) ;;
            emit (EvLogIterFailed err) ;;;
            retM (false, argValues')
        end
      else
        o <- liftM (deref ob) ;;
        c <- try (tick_component t (elems (components o))) ;;
        match c with
        | Some cv =>
            argValues' <- try (store_at i (Some cv) argValues) ;;
            tick_args now ob (S i) ts argValues'
        | None => retM (false, argValues)
        end
  end.

(** After the call: a trailing value of type [error] is cut off and, when
    not nil, reported.  The answer is what remains to be written back. *)
Definition tick_error (w : World) (s : System) (argValues : list iface)
    (results : list value) : M state (list value) :=
  match list.last results with
  | None => retM []
  | Some v =>
      if type_eqb (vtype v) errorType then
        (if negb (IsNil v) then
           args <- try (mapM Interface argValues) ;;
           handleSystemError w (display_name s) args (vdata v)
         else retM tt) ;;;
        retM (take (length results - 1) results)
      else retM results
  end.

(** The slot a result goes to: the index of the first component whose type
    the result's type is assignable to. *)
Fixpoint tick_slot (rt : type) (i : nat) (cs : list iface) : option (option nat) :=
  match cs with
  | [] => Some None
  | c :: cs' =>
      cv ← c;
      if AssignableTo implements rt (vtype cv) then Some (Some i)
      else tick_slot rt (S i) cs'
  end.

(** The loop [rl]; [ob.components] is read again for every result. *)
Fixpoint tick_write_back (ob : option ptr) (results : list value) : M mem unit :=
  match results with
  | [] => retM tt
  | result :: results' =>
      o <- deref ob ;;
      slot <- try (tick_slot (vtype result) 0 (elems (components o))) ;;
      match slot with
      | Some i =>
          a <- try (store_at i (Some result) (arr (components o))) ;;
          set_components ob (Slice a (len (components o)))
      | None => retM tt
      end ;;;
      tick_write_back ob results'
  end.

(** The call, the error report and the write-back that end an iteration
    of the loop [ol]. *)
Definition tick_invoke (w : World) (s : System) (ob : option ptr)
    (argValues : list iface) : M state unit :=
  args <- try (mapM id argValues) ;;
  results <- liftM (Func s args) ;;
  emit (EvCall ob args results) ;;;
  results' <- tick_error w s argValues results ;;
  liftM (tick_write_back ob results').

(** One iteration of the loop [ol]. *)
Definition tick_object (w : World) (s : System) (now : Time)
    (argTypes : list type) (ob : option ptr) (argValues : list iface)
    : M state (list iface) :=
  r <- tick_args now ob 0 argTypes argValues ;;
  (if r.1 then tick_invoke w s ob r.2 else retM tt) ;;;
  retM r.2.

(** The loop [ol]: the [range] clause fixed the array [a] and the indices
    on entry; cell [i] is read when its iteration starts. *)
Fixpoint tick_objects (w : World) (s : System) (now : Time)
    (argTypes : list type) (a : nat) (ixs : list nat) (argValues : list iface)
    : M state unit :=
  match ixs with
  | [] => retM tt
  | i :: ixs' =>
      st <- getM ;;
      cells <- try (arrays (st_mem st) !! a) ;;
      ob <- try (cells !! i) ;;
      argValues' <- tick_object w s now argTypes ob argValues ;;
      tick_objects w s now argTypes a ixs' argValues'
  end.

(** [s.tick(w, now)] *)
Definition tick (s : System) (w : World) (now : Time) : M state unit :=
  sig <- try (signature (Func_type s)) ;;
  let argTypes := sig.1 in
  let argValues := replicate (length argTypes) None in
  st <- getM ;;
  let h := objects (st_mem st) in
  tick_objects w s now argTypes (h_arr h) (seq 0 (h_len h)) argValues.

(** [s.run(ctx, w)] with a context that is never cancelled: one sweep at
    [now] for a system without ticker, else one sweep per timestamp until
    the channel is closed. *)
Fixpoint run_ticks (s : System) (w : World) (ticks : list Time) : M state unit :=
  match ticks with
  | [] => retM tt
  | now :: ticks' => tick s w now ;;; run_ticks s w ticks'
  end.

Definition run (s : System) (w : World) (now : Time) : M state unit :=
  match Ticker s with
  | None => tick s w now
  | Some ticks => run_ticks s w ticks
  end.

(* ===================================================================== *)
(** ** Worlds and systems of the tests *)
(* ===================================================================== *)

(** The component types of [ecs_test.go]. *)
Definition Position : type := Defined "Position" (Basic Tint).
Definition Velocity : type := Defined "Velocity" (Basic Tint).
Definition Player : type := Defined "Player" (StructOf []).
Definition Target : type := Defined "Target" (StructOf []).

Definition position (n : Z) : value := Val Position (DInt n).
Definition velocity (n : Z) : value := Val Velocity (DInt n).
Definition player : value := Val Player (DStruct []).
Definition target : value := Val Target (DStruct []).
Definition cannotMove : data := DErr "cannot move".

(** No type of the tests implements an interface; the growth policy used
    in the examples doubles what is needed. *)
Definition no_methods (T V : type) : bool := false.
Definition doubling (oldcap needed : nat) : nat := 2 * needed.

Definition with_callback : World := {| OnError := true; systems := [] |}.

(** [TestMovement], [TestError]: one object with Position 1, Velocity 2. *)
Definition mover_world : mem :=
  Mem 1 [mkObject 1%Z [Some (position 1); Some (velocity 2)]]
      [[Some 0]] (Header 0 1).

Definition movement : System := {|
  Func_type := FuncOf [Position; Velocity] [Position];
  Func := fun args =>
    match args with
    | [Val _ (DInt p); Val _ (DInt v)] => retM [position (p + v)]
    | _ => panic
    end;
  Func_name := "github.com/dradtke/ecs-go_test.Movement";
  Name := EmptyString;
  Ticker := None
|}.

(** The system of [TestError]: [(Position(0), cannotMove)]. *)
Definition failing_movement : System := {|
  Func_type := FuncOf [Position; Velocity] [Position; errorType];
  Func := fun _ => retM [position 0; Val errorType cannotMove];
  Func_name := "github.com/dradtke/ecs-go_test.TestError.func1";
  Name := "movement";
  Ticker := None
|}.

(** A system with the same parameters that returns only the error. *)
Definition error_only : System := {|
  Func_type := FuncOf [Position; Velocity] [errorType];
  Func := fun _ => retM [Val errorType cannotMove];
  Func_name := "github.com/dradtke/ecs-go_test.errorOnly";
  Name := "movement";
  Ticker := None
|}.


(** [TestMoveTowardsTarget]: a player at 1 and a target at 5, and the
    iterator types of the tests. *)
Definition target_world : mem :=
  Mem 2 [mkObject 1%Z [Some player; Some (position 1)];
         mkObject 2%Z [Some target; Some (position 5)]]
      [[Some 0; Some 1]] (Header 0 2).

Definition targetIter_from : type :=
  FuncOf [intType] [intType; entityType; Target; boolType].

(** Function types outside the tests: one output only; a string input. *)
Definition one_output_iter : type := FuncOf [] [boolType].
Definition string_input_iter : type := FuncOf [stringType] [Position; boolType].

(** [TestTime]: one object without components, and a system that only
    takes the timestamp. *)
Definition empty_object_world : mem :=
  Mem 1 [mkObject 1%Z []] [[Some 0]] (Header 0 1).

Definition saveTime : System := {|
  Func_type := FuncOf [timeType] [];
  Func := fun _ => retM [];
  Func_name := "github.com/dradtke/ecs-go_test.TestTime.func2";
  Name := EmptyString;
  Ticker := None
|}.

(** A system whose only parameter is a function type that
    [makeObjectIter] turns down. *)
Definition needs_one_output_iter : System := {|
  Func_type := FuncOf [one_output_iter] [];
  Func := fun _ => retM [];
  Func_name := "github.com/dradtke/ecs-go_test.needsIter";
  Name := EmptyString;
  Ticker := None
|}.

(** [TestSelfDestruct] without the marker component, on three objects. *)
Definition three_objects : mem :=
  Mem 3 [mkObject 1%Z []; mkObject 2%Z []; mkObject 3%Z []]
      [[Some 0; Some 1; Some 2]] (Header 0 3).

Definition self_destruct : System := {|
  Func_type := FuncOf [worldType; entityType] [];
  Func := fun args =>
    match args with
    | [_; Val _ (DInt e)] => RemoveObject e ;;; retM []
    | _ => panic
    end;
  Func_name := "github.com/dradtke/ecs-go_test.TestSelfDestruct.func1";
  Name := EmptyString;
  Ticker := None
|}.


(** Two objects, of identifiers 1 and 2. *)
Definition two_objects : mem :=
  Mem 2 [mkObject 1%Z []; mkObject 2%Z []] [[Some 0; Some 1]] (Header 0 2).

(** The shape contract of a query iterator as the specification words it:
    at most one input, of an integer kind; at least two outputs, the last
    one boolean. *)
Definition integer_kind (k : Kind) : bool :=
  match k with Int | Int64 | Uint64 => true | _ => false end.

Definition violates_shape_contract (ins outs : list type) : Prop :=
  1 < length ins
  \/ (exists in0, in0 ∈ ins /\ integer_kind (kind in0) = false)
  \/ length outs < 2
  \/ (exists lt, list.last outs = Some lt /\ kind lt <> Bool).

(* ===================================================================== *)
(** ** Vocabulary of the statements *)
(* ===================================================================== *)

(** The objects a [range] over [w.objects] would see. *)
Definition collection (m : mem) : option (list (option ptr)) :=
  elems <$> load m (objects m).

(** The object behind a cell of the collection. *)
Definition object_at (m : mem) (ob : option ptr) : option Object :=
  p ← ob; heap m !! p.

(** An object that is in the world and does not carry [e]. *)
Definition other_object (m : mem) (e : Entity) (ob : option ptr) : Prop :=
  exists o, object_at m ob = Some o /\ entity o <> e.

(** What the dispatcher is to inject for a parameter of type [t] when the
    entity is [o] with components [cs], none of them nil: the special
    values, a query iterator, or the first component whose type is
    assignable to [t]; nothing when there is none. *)
Definition resolve_param (now : Time) (o : Object) (cs : list value)
    (t : type) : option value :=
  if type_eqb t worldType then Some ValueOf_world
  else if type_eqb t entityType then Some (ValueOf_entity (entity o))
  else if type_eqb t timeType then Some (ValueOf_time now)
  else if Kind_eqb (kind t) Reflect.Func then
    match makeObjectIter t with Some (inl v) => Some v | _ => None end
  else List.find (fun cv => AssignableTo implements (vtype cv) t) cs.

Fixpoint resolve_params (now : Time) (o : Object) (cs : list value)
    (ts : list type) : option (list value) :=
  match ts with
  | [] => Some []
  | t :: ts' =>
      v ← resolve_param now o cs t;
      vs ← resolve_params now o cs ts';
      Some (v :: vs)
  end.

(** A parameter that asks for a component. *)
Definition data_param (t : type) : Prop :=
  t <> worldType /\ t <> entityType /\ t <> timeType /\ kind t <> Reflect.Func.



(** How an error of a system reaches the outside: the callback when one
    is set, the log otherwise. *)
Definition error_report (w : World) (s : System) (args : list value)
    (err : data) : event :=
  if OnError w then EvOnError (display_name s) (Some <$> args) err
  else EvLogSystemError (display_name s) err.

(** What an iterator is to answer for an output of type [ot] on the object
    [o] found at index [idx], with components [cs]: the index, the
    identifier, or the first component of exactly that type. *)
Definition output_of (idx : nat) (o : Object) (cs : list value) (ot : type)
    : option value :=
  if type_eqb ot intType then Some (ValueOf_int (Z.of_nat idx))
  else if type_eqb ot entityType then Some (ValueOf_entity (entity o))
  else List.find (fun v => type_eqb (vtype v) ot) cs.

Fixpoint outputs_of (idx : nat) (o : Object) (cs : list value) (ots : list type)
    : option (list value) :=
  match ots with
  | [] => Some []
  | ot :: ots' =>
      v ← output_of idx o cs ot;
      vs ← outputs_of idx o cs ots';
      Some (v :: vs)
  end.

(** An object of the collection that is there, has no nil component, and
    lacks a component some output asks for. *)
Definition unsatisfied (m : mem) (ots : list type) (ob : option ptr) : Prop :=
  exists o cs, object_at m ob = Some o /\ Components o = Some <$> cs
    /\ outputs_of 0 o cs ots = None.

(** What an iterator is to answer when no object is found in a collection
    of [n] objects. *)
Definition notfound_output (n : nat) (ot : type) : value :=
  if type_eqb ot intType then ValueOf_int (Z.of_nat n) else Zero ot.

(** The resume offset an iterator with inputs [ins] takes from [args]. *)
Definition resume_offset (ins : list type) (args : list value) (k : nat) : Prop :=
  (ins = [] /\ k = 0)
  \/ (ins = [intType] /\ exists a, args !! 0 = Some a /\ vdata a = DInt (Z.of_nat k))
  \/ (exists in0, ins = [in0] /\ kind in0 <> Int /\ k = 0).

(** A parameter that asks for no component and cannot fail: the world
    handle, the entity identifier, the timestamp, or a function type that
    [makeObjectIter] accepts. *)
Definition special_param (t : type) : Prop :=
  t = worldType \/ t = entityType \/ t = timeType
  \/ (kind t = Reflect.Func /\ exists v, makeObjectIter t = Some (inl v)).

(** A cell that points to an object whose components are within capacity
    and none of them nil. *)
Definition good_object (m : mem) (ob : option ptr) : Prop :=
  exists o cs, object_at m ob = Some o /\ Components o = Some <$> cs
    /\ len (components o) <= cap (components o).

(** The array [a] still shows the objects [obs] a sweep started with, and
    they are good objects. *)
Definition collection_kept (a : nat) (obs : list (option ptr)) (m : mem) : Prop :=
  (exists cells, arrays m !! a = Some cells /\ take (length obs) cells = obs)
  /\ Forall (good_object m) obs.

(** The objects the system function was called for, in order. *)
Definition called_objects (tr : list event) : list (option ptr) :=
  omap (fun e => match e with EvCall ob _ _ => Some ob | _ => None end) tr.

(* ===================================================================== *)
(** ** The rest of the world's interface *)
(* ===================================================================== *)

(** [NewWorld()]: a world over a new, empty collection, with no callback
    and no system. *)
Definition NewWorld : M mem World :=
  m <- getM ;;
  putM (Mem (gid m) (heap m) (arrays m ++ [[]]) (Header (length (arrays m)) 0)) ;;;
  retM {| OnError := false; systems := [] |}.

(** [w.AddSystem(s)] *)
Definition AddSystem (w : World) (s : System) : World :=
  {| OnError := OnError w; systems := systems w ++ [s] |}.

(** A world as [NewObject] and [AddObject] build it: the counter has not
    gone below the identifiers it handed out, the collection is within its
    capacity, and its cells point to allocated objects. *)
Definition world_ok (m : mem) : Prop :=
  (0 <= gid m)%Z
  /\ Forall (fun o => (0 < entity o <= gid m)%Z) (heap m)
  /\ exists s, load m (objects m) = Some s /\ len s <= cap s
       /\ Forall (fun ob => exists p : ptr, ob = Some p /\ p < length (heap m))
            (elems s).



(** [i + 1] on an [int] of 64 bits. *)
Definition int_wrap (z : Z) : Z := ((z + 2 ^ 63) mod 2 ^ 64 - 2 ^ 63)%Z.

(** The loop of [TestQueryAll] over an iterator of type [t],
    [for i, ..., ok := it(start); ok; i, ..., ok = it(i + 1) { body }],
    with a body that leaves the memory alone: the rows the body sees.
    The loop has no bound of its own; [fuel] bounds the calls of the
    iterator, and the answer says whether the loop has ended. *)
Fixpoint query_loop (fuel : nat) (t : type) (start : Z) (m : mem)
    : option (bool * list (list value)) :=
  match fuel with
  | 0 => Some (false, [])
  | S fuel' =>
      row ← objectIter t [ValueOf_int start] m;
      ok ← list.last row;
      match vdata ok with
      | DBool true =>
          i ← row !! 0;
          match vdata i with
          | DInt n =>
              r ← query_loop fuel' t (int_wrap (n + 1)) m;
              Some (r.1, row :: r.2)
          | _ => None
          end
      | DBool false => Some (true, [])
      | _ => None
      end
  end.

(** The row an iterator with the outputs [ots] and a final bool is to
    answer for the cell [c.2] at index [c.1], when the object behind it
    has a component of every type asked for. *)
Definition row_of (m : mem) (ots : list type) (c : nat * option ptr)
    : option (list value) :=
  o ← object_at m c.2;
  cs ← mapM id (Components o);
  vs ← outputs_of c.1 o cs ots;
  Some (vs ++ [ValueOf_bool true]).

(** A name without a dot. *)
Fixpoint dotless (name : string) : Prop :=
  match name with
  | EmptyString => True
  | String.String c name' => c <> "."%char /\ dotless name'
  end.

(** A world without objects, and one whose only object has a nil
    component before its Position. *)
Definition empty_world : mem := Mem 0 [] [[]] (Header 0 0).

Definition nil_component_world : mem :=
  Mem 1 [mkObject 1%Z [None; Some (position 1)]] [[Some 0]] (Header 0 1).

(** The identifier of the object behind a cell. *)
Definition entity_at (m : mem) (ob : option ptr) : option Entity :=
  entity <$> object_at m ob.

(** What a sweep of a system that removes the object it is called for
    leaves of a collection: the objects at the odd indices, except the
    last object of the collection. *)
Fixpoint survivors {A} (l : list A) : list A :=
  match l with
  | _ :: y :: rest =>
      match rest with
      | [] => []
      | _ :: _ => y :: survivors rest
      end
  | _ => []
  end.







(* ===================================================================== *)
(** ** Facts about the [reflect] fragment *)
(* ===================================================================== *)

Lemma basic_eqb_eq a b : basic_eqb a b = true <-> a = b.
Proof. destruct a, b; simpl; split; congruence. Qed.

Lemma Kind_eqb_eq a b : Kind_eqb a b = true <-> a = b.
Proof. destruct a, b; simpl; split; congruence. Qed.

Lemma list_eqb_eq {A} (eqb : A -> A -> bool) (l : list A) :
  Forall (fun x => forall y, eqb x y = true <-> x = y) l ->
  forall l', list_eqb eqb l l' = true <-> l = l'.
Proof.
  induction 1 as [|x l Hx _ IH]; intros [|y l']; simpl;
    try (split; congruence).
  rewrite andb_true_iff, Hx, IH. split.
  - intros [-> ->]; reflexivity.
  - intros [= -> ->]; auto.
Qed.

(** Induction on types that reaches into the lists of a signature and of
    a struct. *)
Lemma type_ind_nested (P : type -> Prop) :
  (forall b, P (Basic b)) ->
  (forall n u, P u -> P (Defined n u)) ->
  (forall ins outs, Forall P ins -> Forall P outs -> P (FuncOf ins outs)) ->
  (forall e, P e -> P (PtrTo e)) ->
  (forall fs, Forall P fs -> P (StructOf fs)) ->
  (forall ms, P (InterfaceOf ms)) ->
  forall t, P t.
Proof.
  intros HB HD HF HP HS HI.
  fix IH 1. intros [b|n u|ins outs|e|fs|ms].
  - apply HB.
  - apply HD, IH.
  - apply HF.
    + induction ins as [|t ts IHts]; constructor; [apply IH | exact IHts].
    + induction outs as [|t ts IHts]; constructor; [apply IH | exact IHts].
  - apply HP, IH.
  - apply HS. induction fs as [|t ts IHts]; constructor; [apply IH | exact IHts].
  - apply HI.
Qed.

Lemma type_eqb_eq a : forall b, type_eqb a b = true <-> a = b.
Proof.
  induction a as [b|n u IHu|ins outs Hins Houts|e IHe|fs Hfs|ms]
    using type_ind_nested; intros [b'|n' u'|ins' outs'|e'|fs'|ms']; simpl;
    try (split; congruence).
  - rewrite basic_eqb_eq. split; congruence.
  - rewrite andb_true_iff, String.eqb_eq, IHu. split.
    + intros [-> ->]; reflexivity.
    + intros [= -> ->]; auto.
  - rewrite andb_true_iff, (list_eqb_eq _ _ Hins), (list_eqb_eq _ _ Houts). split.
    + intros [-> ->]; reflexivity.
    + intros [= -> ->]; auto.
  - rewrite IHe. split; congruence.
  - rewrite (list_eqb_eq _ _ Hfs). split; congruence.
  - rewrite list_eqb_eq.
    + split; congruence.
    + apply Forall_forall. intros x _ y. apply String.eqb_eq.
Qed.

Lemma type_eqb_refl t : type_eqb t t = true.
Proof. apply type_eqb_eq. reflexivity. Qed.

Lemma type_eqb_neq a b : a <> b -> type_eqb a b = false.
Proof.
  intros Hne. destruct (type_eqb a b) eqn:E; [|reflexivity].
  apply type_eqb_eq in E. contradiction.
Qed.

Lemma rtype_eqb_eq a b : rtype_eqb a b = true <-> a = b.
Proof.
  destruct a, b; simpl; try (split; congruence).
  rewrite type_eqb_eq. split; congruence.
Qed.

Lemma AssignableTo_refl t : AssignableTo implements t t = true.
Proof.
  unfold AssignableTo, directlyAssignable. rewrite type_eqb_refl. reflexivity.
Qed.

(** A type of kind [Func] has a signature. *)
Lemma kind_Func_signature t :
  kind t = Reflect.Func -> exists ins outs, signature t = Some (ins, outs).
Proof.
  unfold signature. induction t as [b|n u IH|ins outs|e|fs|ms]; simpl;
    try discriminate; eauto.
  destruct b; discriminate.
Qed.

(* ===================================================================== *)
(** ** Facts about slices *)
(* ===================================================================== *)

Section SliceFacts.
Context {A : Type}.
Implicit Types (s : slice A) (zero : A).

Lemma length_elems s : len s <= cap s -> length (elems s) = len s.
Proof. unfold elems, cap. intros H. rewrite length_take. lia. Qed.

(** Deleting inside the length is done in place and removes cell [i] from
    what the slice shows. *)
Lemma delete_at_inside zero s i :
  i < len s -> len s <= cap s ->
  exists s', delete_at growslice zero s i = Some (s', false)
    /\ elems s' = take i (elems s) ++ drop (S i) (elems s)
    /\ len s' = len s - 1
    /\ cap s' = cap s.
Proof.
  intros Hi Hc. unfold delete_at, slice_to, slice_from.
  rewrite decide_True by lia. simpl.
  rewrite decide_True by lia. simpl.
  unfold append. simpl.
  assert (Hl : length (drop (S i) (elems s)) = len s - S i).
  { rewrite length_drop, length_elems by exact Hc. reflexivity. }
  rewrite Hl. rewrite decide_True by (unfold cap in *; simpl; lia).
  eexists. split; [reflexivity|]. unfold elems, cap in *. simpl.
  repeat split.
  - rewrite app_assoc, take_app_length'.
    + rewrite take_take. do 2 f_equal. lia.
    + rewrite length_app, length_take, Hl. lia.
  - lia.
  - rewrite !length_app, length_take, Hl, length_drop. lia.
Qed.

(** Appending one element shows it after the old elements, in place or in
    a fresh array. *)
Lemma append_one_elems zero s x :
  len s <= cap s ->
  elems (append growslice zero s [x]).1 = elems s ++ [x]
  /\ len (append growslice zero s [x]).1 <= cap (append growslice zero s [x]).1.
Proof.
  intros Hc. unfold append. simpl. unfold cap in *.
  assert (Ht : length (take (len s) (arr s)) = len s)
    by (rewrite length_take; lia).
  destruct (decide (len s + 1 <= length (arr s))) as [Hfit|Hfull]; simpl;
    unfold elems, cap; simpl.
  - split.
    + rewrite (cons_middle x), app_assoc, take_app_length'; [reflexivity|].
      rewrite length_app, Ht. simpl. lia.
    + rewrite length_app, Ht. simpl. rewrite length_drop. lia.
  - split.
    + rewrite (cons_middle x), app_assoc, take_app_length'; [reflexivity|].
      rewrite length_app, Ht. simpl. lia.
    + rewrite length_app, Ht. simpl. rewrite length_replicate. lia.
Qed.
End SliceFacts.

(* ===================================================================== *)
(** ** The object collection: [AddObject], [GetObject], [RemoveObject] *)
(* ===================================================================== *)

Ltac munfold :=
  repeat progress (unfold bindM, retM, try, getM, putM, panic, liftM, emit; simpl).

Lemma deref_object_at m ob o :
  object_at m ob = Some o -> deref ob m = Some (o, m).
Proof.
  unfold object_at, deref. munfold. destruct ob as [p|]; simpl; [|discriminate].
  intros ->. reflexivity.
Qed.

Lemma collection_store_objects m s r :
  load m (objects m) = Some s ->
  collection (store_objects m (objects m) r) = Some (elems r.1).
Proof.
  unfold load, collection, store_objects. intros Hload.
  destruct (arrays m !! h_arr (objects m)) as [a|] eqn:Ha; [|discriminate].
  destruct r as [s' [|]]; simpl; unfold load; simpl.
  - rewrite lookup_app_r, Nat.sub_diag by lia. reflexivity.
  - rewrite list_lookup_insert_eq by (eapply lookup_lt_Some; eauto). reflexivity.
Qed.

Lemma RemoveObject_loop_absent m e obs : forall i,
  Forall (other_object m e) obs ->
  RemoveObject_loop e i obs m = Some (tt, m).
Proof.
  induction obs as [|ob obs IH]; intros i Hall; simpl; [reflexivity|].
  inversion Hall as [|? ? (o & Ho & Hne) Hall']; subst.
  unfold bindM at 1. rewrite (deref_object_at _ _ _ Ho).
  apply Z.eqb_neq in Hne. rewrite Hne. auto.
Qed.

Lemma RemoveObject_loop_present m e pre ob post o s : forall i,
  Forall (other_object m e) pre ->
  object_at m ob = Some o -> entity o = e ->
  load m (objects m) = Some s ->
  RemoveObject_loop e i (pre ++ ob :: post) m =
    match delete_at growslice None s (i + length pre) with
    | Some r => Some (tt, store_objects m (objects m) r)
    | None => None
    end.
Proof.
  induction pre as [|ob' pre IH]; intros i Hall Ho He Hload; simpl.
  - unfold bindM at 1. rewrite (deref_object_at _ _ _ Ho).
    apply Z.eqb_eq in He. rewrite He. munfold. rewrite Hload. munfold.
    rewrite Nat.add_0_r. destruct (delete_at _ _ _ _); reflexivity.
  - inversion Hall as [|? ? (o' & Ho' & Hne) Hall']; subst.
    unfold bindM at 1. rewrite (deref_object_at _ _ _ Ho').
    apply Z.eqb_neq in Hne. rewrite Hne.
    rewrite (IH (S i)) by auto. replace (S i + length pre) with (i + S (length pre)) by lia.
    reflexivity.
Qed.

(** C9.  [RemoveObject] with an identifier that no object of the collection
    carries leaves the memory as it is; with an identifier that is present
    it deletes the first object carrying it and keeps every other object,
    in order.  The collection is a slice within its capacity whose cells
    before the match are objects. *)
Theorem RemoveObject_frame (m : mem) (e : Entity) (s : slice (option ptr)) :
  load m (objects m) = Some s ->
  len s <= cap s ->
  (Forall (other_object m e) (elems s) -> RemoveObject e m = Some (tt, m))
  /\ (forall pre ob post o,
        elems s = pre ++ ob :: post ->
        Forall (other_object m e) pre ->
        object_at m ob = Some o -> entity o = e ->
        exists m', RemoveObject e m = Some (tt, m')
          /\ collection m' = Some (pre ++ post)
          /\ heap m' = heap m /\ gid m' = gid m).
Proof.
  intros Hload Hcap. split.
  - intros Hall. unfold RemoveObject. munfold. rewrite Hload. munfold.
    apply RemoveObject_loop_absent, Hall.
  - intros pre ob post o Helems Hpre Ho He.
    unfold RemoveObject. munfold. rewrite Hload. munfold. rewrite Helems.
    rewrite (RemoveObject_loop_present m e pre ob post o s 0) by assumption.
    simpl.
    assert (Hlen : length pre < len s).
    { rewrite <- (length_elems s Hcap), Helems, length_app. simpl. lia. }
    destruct (delete_at_inside None s (length pre) Hlen Hcap)
      as (s' & Hdel & Hel & _ & _).
    rewrite Hdel. eexists. split; [reflexivity|].
    split; [|split; reflexivity].
    rewrite (collection_store_objects m s) by assumption. simpl.
    rewrite Hel, Helems, take_app_length. do 2 f_equal.
    change (ob :: post) with ([ob] ++ post). rewrite app_assoc.
    apply drop_app_length'. rewrite length_app. simpl. lia.
Qed.

Lemma heap_store_objects m h r : heap (store_objects m h r) = heap m.
Proof. unfold store_objects. destruct r.2; reflexivity. Qed.

Lemma object_at_heap m m' ob : heap m' = heap m -> object_at m' ob = object_at m ob.
Proof. unfold object_at. intros ->. reflexivity. Qed.

(** [GetObject] answers the first cell whose object carries the identifier. *)
Lemma GetObject_loop_first m e (p : ptr) o obs :
  Forall (fun ob => ob = Some p \/ other_object m e ob) obs ->
  heap m !! p = Some o -> entity o = e ->
  GetObject_loop e (obs ++ [Some p]) m = Some (Some p, m).
Proof.
  intros Hall Hp He.
  assert (Hfound : forall rest, GetObject_loop e (Some p :: rest) m = Some (Some p, m)).
  { intros rest. simpl. unfold bindM at 1.
    rewrite (deref_object_at m (Some p) o) by exact Hp.
    apply Z.eqb_eq in He. rewrite He. reflexivity. }
  induction Hall as [|ob obs [->|(o' & Ho' & Hne)] _ IH].
  - apply Hfound.
  - apply Hfound.
  - simpl. unfold bindM at 1. rewrite (deref_object_at _ _ _ Ho').
    apply Z.eqb_neq in Hne. rewrite Hne. exact IH.
Qed.

(** C10.  [AddObject] returns the identifier stored in the object, and a
    following [GetObject] with that identifier yields the very same
    pointer, provided every other object of the collection carries another
    identifier. *)
Theorem AddObject_GetObject (m : mem) (s : slice (option ptr)) (p : ptr) (o : Object) :
  load m (objects m) = Some s ->
  len s <= cap s ->
  heap m !! p = Some o ->
  Forall (fun ob => ob = Some p \/ other_object m (entity o) ob) (elems s) ->
  exists m', AddObject (Some p) m = Some (entity o, m')
    /\ GetObject (entity o) m' = Some (Some p, m')
    /\ collection m' = Some (elems s ++ [Some p])
    /\ heap m' = heap m.
Proof.
  intros Hload Hcap Hp Hall.
  set (r := append growslice None s [Some p]).
  set (m' := store_objects m (objects m) r).
  assert (Hheap : heap m' = heap m) by apply heap_store_objects.
  assert (Hcoll : collection m' = Some (elems s ++ [Some p])).
  { unfold m'. rewrite (collection_store_objects m s) by exact Hload.
    unfold r. rewrite (proj1 (append_one_elems None s (Some p) Hcap)). reflexivity. }
  exists m'. split; [|split; [|split; assumption]].
  - unfold AddObject. munfold. rewrite Hload. munfold. fold r. fold m'.
    unfold deref. munfold. rewrite Hheap, Hp. reflexivity.
  - unfold GetObject. munfold. unfold collection in Hcoll.
    destruct (load m' (objects m')) as [s'|]; [|discriminate].
    munfold. injection Hcoll as ->.
    apply (GetObject_loop_first m' (entity o) p o).
    + eapply Forall_impl; [|exact Hall].
      intros ob [->|(o' & Ho' & Hne)]; [left; reflexivity|].
      right. exists o'. rewrite (object_at_heap m m') by exact Hheap. auto.
    + rewrite Hheap. exact Hp.
    + reflexivity.
Qed.

(** X6.  [NewObject] draws the identifier from the counter: it differs from
    every identifier handed out before, unless the counter has wrapped. *)
Lemma NewObject_fresh (m : mem) (cs : list iface) :
  (0 <= gid m < 2 ^ 64 - 1)%Z ->
  Forall (fun o => (0 < entity o <= gid m)%Z) (heap m) ->
  exists p m', NewObject cs m = Some (Some p, m')
    /\ heap m' = heap m ++ [mkObject (gid m + 1)%Z cs]
    /\ heap m' !! p = Some (mkObject (gid m + 1)%Z cs)
    /\ Forall (fun o => entity o <> (gid m + 1)%Z) (heap m)
    /\ gid m' = (gid m + 1)%Z.
Proof.
  intros Hgid Hall. unfold NewObject, uint64_wrap. munfold.
  rewrite Z.mod_small by lia.
  eexists _, _. split; [reflexivity|]. simpl. repeat split.
  - rewrite lookup_app_r, Nat.sub_diag by lia. reflexivity.
  - eapply Forall_impl; [|exact Hall]. simpl. intros o Ho. lia.
Qed.

(* ===================================================================== *)
(** ** Components: lookup and write-back select the first match *)
(* ===================================================================== *)

Lemma Component_loop_first t pre c post :
  Forall (fun x => TypeOf x <> t) pre -> TypeOf c = t ->
  Component_loop t (pre ++ c :: post) = c.
Proof.
  intros Hpre Hc. induction Hpre as [|x pre Hx _ IH]; simpl.
  - rewrite (proj2 (rtype_eqb_eq _ _) Hc). reflexivity.
  - destruct (rtype_eqb (TypeOf x) t) eqn:E; [|exact IH].
    apply rtype_eqb_eq in E. contradiction.
Qed.





(* ===================================================================== *)
(** ** The query iterator: construction *)
(* ===================================================================== *)

Lemma kind_Func_not_special t :
  kind t = Reflect.Func ->
  type_eqb t worldType = false /\ type_eqb t entityType = false
  /\ type_eqb t timeType = false.
Proof.
  intros Hk. repeat split; apply type_eqb_neq; intros ->; discriminate.
Qed.

(** Which signatures [makeObjectIter] turns down. *)
Lemma makeObjectIter_cases t ins outs :
  signature t = Some (ins, outs) ->
  (exists v, makeObjectIter t = Some (inl v)
     /\ v = Val t DFunc /\ length ins <= 1 /\ 2 <= length outs
     /\ exists lt, list.last outs = Some lt /\ kind lt = Bool)
  \/ (exists err, makeObjectIter t = Some (inr err)
     /\ (1 < length ins \/ length outs < 2
         \/ exists lt, list.last outs = Some lt /\ kind lt <> Bool)).
Proof.
  intros Hsig. unfold makeObjectIter. rewrite Hsig. simpl.
  destruct (decide (1 < length ins)) as [Hin|Hin]; [right; eauto|].
  destruct (decide (length outs < 2)) as [Hout|Hout]; [right; eauto|].
  destruct (list.last outs) as [lt|] eqn:Hlast.
  - simpl. destruct (Kind_eqb (kind lt) Bool) eqn:Hk; simpl.
    + apply Kind_eqb_eq in Hk. left. eexists. repeat split; try lia; eauto.
    + right. eexists. split; [reflexivity|]. right. right. exists lt. split; [reflexivity|].
      intros Heq. apply Kind_eqb_eq in Heq. congruence.
  - apply last_None in Hlast. subst outs. simpl in Hout. lia.
Qed.

(* ===================================================================== *)
(** ** The dispatcher: resolving the parameters *)
(* ===================================================================== *)

Lemma liftM_deref m tr ob o :
  object_at m ob = Some o ->
  liftM (deref ob) (State m tr) = Some (o, State m tr).
Proof.
  intros Ho. unfold liftM. simpl. rewrite (deref_object_at _ _ _ Ho). reflexivity.
Qed.

Lemma tick_component_find t cs :
  tick_component t (Some <$> cs)
  = Some (List.find (fun cv => AssignableTo implements (vtype cv) t) cs).
Proof.
  induction cs as [|c cs IH]; [reflexivity|].
  rewrite fmap_cons. cbn [tick_component mbind option_bind List.find].
  destruct (AssignableTo implements (vtype c) t); [reflexivity|exact IH].
Qed.

Lemma store_at_bind {S A B} i (x : A) (l : list A) (k : list A -> M S B) st :
  i < length l ->
  bindM (try (store_at i x l)) k st = k (<[i := x]> l) st.
Proof.
  intros Hi. unfold store_at. rewrite decide_True by exact Hi. reflexivity.
Qed.

Lemma splice_step {A} (av : list A) i x vs n :
  i < length av ->
  take (S i) (<[i := x]> av) ++ vs ++ drop (S i + n) (<[i := x]> av)
  = take i av ++ (x :: vs) ++ drop (i + S n) av.
Proof.
  intros Hi.
  rewrite (take_S_r _ _ x) by (apply list_lookup_insert_eq; exact Hi).
  rewrite take_insert_ge by lia. rewrite drop_insert_lt by lia.
  rewrite <- app_assoc. simpl.
  replace (i + S n) with (S (i + n)) by lia. reflexivity.
Qed.

(** A prefix of parameters that resolves is stored cell by cell, and the
    state is not touched. *)
Lemma tick_args_prefix now m tr ob o cs :
  object_at m ob = Some o ->
  Components o = Some <$> cs ->
  forall pre rest vs i av,
    resolve_params now o cs pre = Some vs ->
    i + length pre <= length av ->
    tick_args now ob i (pre ++ rest) av (State m tr)
    = tick_args now ob (i + length pre) rest
        (take i av ++ (Some <$> vs) ++ drop (i + length pre) av) (State m tr).
Proof.
  intros Ho Hcs. unfold Components in Hcs.
  induction pre as [|t pre IH]; intros rest vs i av Hres Hlen.
  - injection Hres as <-. simpl. rewrite Nat.add_0_r, take_drop. reflexivity.
  - simpl in Hres, Hlen.
    destruct (resolve_param now o cs t) as [v|] eqn:Hv; [|discriminate].
    destruct (resolve_params now o cs pre) as [vs'|] eqn:Hvs; [|discriminate].
    injection Hres as <-.
    assert (Hi : i < length av) by lia.
    assert (Hgo : tick_args now ob (S i) (pre ++ rest) (<[i := Some v]> av) (State m tr)
                  = tick_args now ob (i + length (t :: pre)) rest
                      (take i av ++ (Some <$> v :: vs') ++ drop (i + length (t :: pre)) av)
                      (State m tr)).
    { rewrite (IH rest vs' (S i)) by (rewrite ?length_insert; auto; lia).
      rewrite splice_step by exact Hi.
      replace (S i + length pre) with (i + length (t :: pre)) by (simpl; lia).
      reflexivity. }
    cbn [app tick_args]. unfold resolve_param in Hv.
    destruct (type_eqb t worldType).
    { injection Hv as <-. rewrite store_at_bind by exact Hi. exact Hgo. }
    destruct (type_eqb t entityType).
    { injection Hv as <-. unfold bindM at 1. rewrite (liftM_deref _ _ _ _ Ho).
      rewrite store_at_bind by exact Hi. exact Hgo. }
    destruct (type_eqb t timeType).
    { injection Hv as <-. rewrite store_at_bind by exact Hi. exact Hgo. }
    destruct (Kind_eqb (kind t) Reflect.Func).
    { destruct (makeObjectIter t) as [[v'|err]|]; try discriminate.
      injection Hv as <-. unfold bindM at 1. simpl.
      rewrite store_at_bind by exact Hi. exact Hgo. }
    unfold bindM at 1. rewrite (liftM_deref _ _ _ _ Ho).
    rewrite Hcs, tick_component_find. unfold bindM at 1. simpl. rewrite Hv.
    rewrite store_at_bind by exact Hi. exact Hgo.
Qed.

Lemma length_resolve_params now o cs ts vs :
  resolve_params now o cs ts = Some vs -> length vs = length ts.
Proof.
  revert vs. induction ts as [|t ts IH]; intros vs; simpl.
  - intros [= <-]. reflexivity.
  - destruct (resolve_param now o cs t); [|discriminate]. simpl.
    destruct (resolve_params now o cs ts); [|discriminate]. simpl.
    intros [= <-]. simpl. f_equal. auto.
Qed.

(** All parameters resolve: the array holds exactly the resolved values,
    whatever it held before. *)
Lemma tick_args_resolved now m tr ob o cs ts vs av :
  object_at m ob = Some o ->
  Components o = Some <$> cs ->
  resolve_params now o cs ts = Some vs ->
  length av = length ts ->
  tick_args now ob 0 ts av (State m tr) = Some ((true, Some <$> vs), State m tr).
Proof.
  intros Ho Hcs Hres Hlen.
  rewrite <- (app_nil_r ts) at 1.
  rewrite (tick_args_prefix now m tr ob o cs Ho Hcs ts [] vs 0 av Hres) by lia.
  simpl. rewrite drop_ge by lia. rewrite app_nil_r. reflexivity.
Qed.


Lemma tick_object_invoked w s now m tr ob o cs ts vs av :
  object_at m ob = Some o ->
  Components o = Some <$> cs ->
  resolve_params now o cs ts = Some vs ->
  length av = length ts ->
  tick_object w s now ts ob av (State m tr)
  = (tick_invoke w s ob (Some <$> vs) ;;; retM (Some <$> vs)) (State m tr).
Proof.
  intros Ho Hcs Hres Hlen. unfold tick_object. unfold bindM at 1.
  rewrite (tick_args_resolved now m tr ob o cs ts vs av) by assumption.
  reflexivity.
Qed.


(** Iteration [i] of the sweep reads cell [i] of the array the [range]
    clause fixed. *)
Lemma tick_objects_cons w s now ts a i ixs av m tr cells ob :
  arrays m !! a = Some cells -> cells !! i = Some ob ->
  tick_objects w s now ts a (i :: ixs) av (State m tr)
  = (av' <- tick_object w s now ts ob av ;;
     tick_objects w s now ts a ixs av') (State m tr).
Proof.
  intros Ha Hi. cbn [tick_objects]. unfold bindM at 1, getM. cbn [st_mem].
  rewrite Ha. unfold bindM at 1. cbn [try retM]. rewrite Hi. reflexivity.
Qed.







Lemma signature_kind t ins outs :
  signature t = Some (ins, outs) -> kind t = Reflect.Func.
Proof.
  unfold signature. induction t; simpl; try discriminate; auto.
Qed.

(** C6 as the code has it.  Building the iterator for a function type fails
    exactly when the type has more than one input, fewer than two outputs,
    or a last output that is not of kind bool; the kind of the input is not
    looked at.  When it fails in iteration [i] of a sweep, the parameters
    before it having resolved, the system is not invoked for the entity,
    the failure is logged, the memory is untouched and the sweep goes on
    with the following indices. *)
Theorem makeObjectIter_fails_iff (t : type) (ins outs : list type) :
  signature t = Some (ins, outs) ->
  ((exists err, makeObjectIter t = Some (inr err))
   <-> (1 < length ins \/ length outs < 2
        \/ exists lt, list.last outs = Some lt /\ kind lt <> Bool))
  /\ (forall (w : World) (s : System) (now : Time) (m : mem) (tr : list event)
        (a i : nat) (ixs : list nat) (cells : list (option ptr))
        (ob : option ptr) (o : Object) (cs : list value)
        (pre post : list type) (vs : list value) (err : string) (av : list iface),
        arrays m !! a = Some cells -> cells !! i = Some ob ->
        object_at m ob = Some o ->
        Components o = Some <$> cs ->
        length av = length (pre ++ t :: post) ->
        resolve_params now o cs pre = Some vs ->
        makeObjectIter t = Some (inr err) ->
        exists av',
          tick_object w s now (pre ++ t :: post) ob av (State m tr)
            = Some (av', State m (tr ++ [EvLogIterFailed err]))
          /\ tick_objects w s now (pre ++ t :: post) a (i :: ixs) av (State m tr)
             = tick_objects w s now (pre ++ t :: post) a ixs av'
                 (State m (tr ++ [EvLogIterFailed err]))).
Proof.
  intros Hsig. split.
  - destruct (makeObjectIter_cases t ins outs Hsig)
      as [(v & Hmk & _ & Hin & Hout & lt & Hlast & Hk)|(err & Hmk & Hbad)].
    + split.
      * intros (err & Herr). congruence.
      * intros [H|[H|(lt' & Hlast' & Hk')]]; try lia. congruence.
    + split; eauto.
  - intros w s now m tr a i ixs cells ob o cs pre post vs err av
      Ha Hi Ho Hcs Hlen Hres Hmk.
    pose proof (signature_kind _ _ _ Hsig) as Hk.
    destruct (kind_Func_not_special t Hk) as (Hw & He & Ht).
    rewrite length_app in Hlen. simpl in Hlen.
    assert (Hargs : tick_args now ob 0 (pre ++ t :: post) av (State m tr)
              = Some ((false, <[length pre := None]>
                                (take 0 av ++ (Some <$> vs) ++ drop (0 + length pre) av)),
                      State m (tr ++ [EvLogIterFailed err]))).
    { rewrite (tick_args_prefix now m tr ob o cs Ho Hcs pre (t :: post) vs 0 av Hres)
        by lia.
      cbn [tick_args]. rewrite Hw, He, Ht, (proj2 (Kind_eqb_eq _ _) Hk), Hmk.
      unfold bindM at 1. simpl.
      rewrite store_at_bind; [reflexivity|].
      rewrite length_app, length_fmap, length_drop.
      rewrite (length_resolve_params _ _ _ _ _ Hres). lia. }
    eexists. split.
    + unfold tick_object. unfold bindM at 1. rewrite Hargs. reflexivity.
    + rewrite (tick_objects_cons _ _ _ _ _ _ _ _ _ _ cells ob) by assumption.
      unfold bindM at 1. unfold tick_object. unfold bindM at 1. rewrite Hargs.
      reflexivity.
Qed.

(* ===================================================================== *)
(** ** The dispatcher: the call, errors and the write-back *)
(* ===================================================================== *)

Lemma mapM_id_Some {A} (vs : list A) : mapM id (Some <$> vs) = Some vs.
Proof. apply mapM_fmap_Some. reflexivity. Qed.

Lemma mapM_Interface_Some (vs : list value) :
  mapM Interface (Some <$> vs) = Some (Some <$> vs).
Proof.
  induction vs as [|v vs IH]; [reflexivity|].
  rewrite fmap_cons. cbn [mapM]. rewrite IH. reflexivity.
Qed.

(** The call with resolved arguments, its results [rs] and the memory [m1]
    the system leaves. *)
Lemma tick_invoke_call w s ob vs m tr rs m1 :
  Func s vs m = Some (rs, m1) ->
  tick_invoke w s ob (Some <$> vs) (State m tr)
  = (results' <- tick_error w s (Some <$> vs) rs ;;
     liftM (tick_write_back ob results')) (State m1 (tr ++ [EvCall ob vs rs])).
Proof.
  intros Hcall. unfold tick_invoke. rewrite mapM_id_Some.
  unfold bindM at 1. cbn [try retM]. unfold bindM at 1, liftM at 1. cbn [st_mem].
  rewrite Hcall. reflexivity.
Qed.

Lemma tick_error_reported w s vs rs err m tr :
  err <> DNil ->
  tick_error w s (Some <$> vs) (rs ++ [Val errorType err]) (State m tr)
  = Some (rs, State m (tr ++ [error_report w s vs err])).
Proof.
  intros Herr. unfold tick_error. rewrite last_snoc.
  cbn [vtype]. rewrite type_eqb_refl.
  assert (Hnil : IsNil (Val errorType err) = false)
    by (unfold IsNil; destruct err; [contradiction|reflexivity..]).
  rewrite Hnil.
  cbn [negb]. rewrite mapM_Interface_Some. cbn [try].
  rewrite length_app. cbn [length].
  replace (length rs + 1 - 1) with (length rs) by lia.
  rewrite take_app_length.
  unfold handleSystemError, error_report. destruct (OnError w); reflexivity.
Qed.

(** The iteration of a call that ends in a non-nil error, in full. *)
Lemma tick_objects_error_step (w : World) (s : System) (now : Time)
    (m m1 : mem) (tr : list event) (a i : nat) (ixs : list nat)
    (cells : list (option ptr)) (ob : option ptr) (o : Object)
    (cs : list value) (argTypes : list type) (av : list iface)
    (vs rs : list value) (err : data) :
  arrays m !! a = Some cells -> cells !! i = Some ob ->
  object_at m ob = Some o ->
  Components o = Some <$> cs ->
  length av = length argTypes ->
  resolve_params now o cs argTypes = Some vs ->
  Func s vs m = Some (rs ++ [Val errorType err], m1) ->
  err <> DNil ->
  tick_objects w s now argTypes a (i :: ixs) av (State m tr)
  = (liftM (tick_write_back ob rs) ;;;
     tick_objects w s now argTypes a ixs (Some <$> vs))
      (State m1 (tr ++ [EvCall ob vs (rs ++ [Val errorType err]);
                        error_report w s vs err])).
Proof.
  intros Ha Hi Ho Hcs Hlen Hres Hcall Herr.
  rewrite (tick_objects_cons _ _ _ _ _ _ _ _ _ _ cells ob) by assumption.
  unfold bindM at 1.
  rewrite (tick_object_invoked w s now m tr ob o cs argTypes vs av) by assumption.
  unfold bindM at 1.
  rewrite (tick_invoke_call w s ob vs m tr _ m1 Hcall).
  unfold bindM at 1.
  rewrite (tick_error_reported w s vs rs err m1 _ Herr).
  rewrite <- app_assoc. cbn [app]. unfold bindM.
  destruct (liftM (tick_write_back ob rs) _) as [[[] st']|]; reflexivity.
Qed.


(** C1.  A world with one object holding Position 1 and Velocity 2, a
    callback set, and a one-shot system with parameters (Position,
    Velocity) and an override name whose call returns just a non-nil error:
    running the system calls the callback once, with the override name and
    the arguments [Position 1; Velocity 2], and leaves the memory, so the
    Position component, as it was. *)
Theorem error_only_system_reported_once (w : World) (s : System) (now : Time)
    (m : mem) (tr : list event) (a : nat) (cells : list (option ptr))
    (p : ptr) (o : Object) (outs : list type) (err : data) :
  OnError w = true ->
  Name s <> EmptyString ->
  Ticker s = None ->
  signature (Func_type s) = Some ([Position; Velocity], outs) ->
  objects m = Header a 1 ->
  arrays m !! a = Some cells -> cells !! 0 = Some (Some p) ->
  heap m !! p = Some o ->
  Components o = [Some (Val Position (DInt 1)); Some (Val Velocity (DInt 2))] ->
  Func s [Val Position (DInt 1); Val Velocity (DInt 2)] m
    = Some ([Val errorType err], m) ->
  err <> DNil ->
  run s w now (State m tr)
  = Some (tt, State m (tr ++
      [EvCall (Some p) [Val Position (DInt 1); Val Velocity (DInt 2)]
              [Val errorType err];
       EvOnError (Name s)
              [Some (Val Position (DInt 1)); Some (Val Velocity (DInt 2))] err])).
Proof.
  intros Hon Hname Htick Hsig Hobjs Ha Hc Hp Hcs Hcall Herr.
  unfold run. rewrite Htick. unfold tick. rewrite Hsig.
  unfold bindM at 1. cbn [try retM fst]. unfold bindM at 1, getM. cbn [st_mem].
  rewrite Hobjs. cbn [h_arr h_len seq].
  rewrite (tick_objects_error_step w s now m m tr a 0 [] cells (Some p) o
             [Val Position (DInt 1); Val Velocity (DInt 2)]
             [Position; Velocity] _
             [Val Position (DInt 1); Val Velocity (DInt 2)] [] err);
    try assumption; try reflexivity.
  unfold error_report, display_name. rewrite Hon.
  apply String.eqb_neq in Hname. rewrite Hname. reflexivity.
Qed.

(* ===================================================================== *)
(** ** The query iterator: the search *)
(* ===================================================================== *)

Lemma getComponentValue_find o cs ot :
  Components o = Some <$> cs ->
  getComponentValue o ot = Some (List.find (fun v => type_eqb (vtype v) ot) cs).
Proof.
  unfold getComponentValue, Components. intros ->.
  induction cs as [|c cs IH]; [reflexivity|].
  rewrite fmap_cons. cbn [getComponentValue_loop mbind option_bind List.find].
  destruct (type_eqb (vtype c) ot); [reflexivity|exact IH].
Qed.

Lemma store_at_Some {A} i (x : A) l :
  i < length l -> store_at i x l = Some (<[i := x]> l).
Proof. intros Hi. unfold store_at. rewrite decide_True by exact Hi. reflexivity. Qed.

(** The loop over the outputs on one object: either every output is
    stored, or the object is given up and the array keeps its length. *)
Lemma objectIter_outs_spec m idx ob o cs :
  object_at m ob = Some o ->
  Components o = Some <$> cs ->
  forall ots out results,
    out + length ots <= length results ->
    match outputs_of idx o cs ots with
    | Some vs =>
        objectIter_outs m idx ob out ots results
        = Some (true, take out results ++ (Some <$> vs)
                        ++ drop (out + length ots) results)
    | None =>
        exists results', objectIter_outs m idx ob out ots results
                         = Some (false, results')
          /\ length results' = length results
    end.
Proof.
  intros Ho Hcs. induction ots as [|ot ots IH]; intros out results Hlen.
  - simpl. rewrite Nat.add_0_r, take_drop. reflexivity.
  - simpl in Hlen. assert (Hout : out < length results) by lia.
    assert (Hstep : forall v,
      output_of idx o cs ot = Some v ->
      match outputs_of idx o cs (ot :: ots) with
      | Some vs =>
          objectIter_outs m idx ob (S out) ots (<[out := Some v]> results)
          = Some (true, take out results ++ (Some <$> vs)
                          ++ drop (out + length (ot :: ots)) results)
      | None =>
          exists results', objectIter_outs m idx ob (S out) ots (<[out := Some v]> results)
                           = Some (false, results')
            /\ length results' = length results
      end).
    { intros v Hv. cbn [outputs_of]. rewrite Hv. cbn [mbind option_bind].
      specialize (IH (S out) (<[out := Some v]> results)).
      rewrite length_insert in IH. specialize (IH ltac:(lia)).
      destruct (outputs_of idx o cs ots) as [vs|]; cbn [mbind option_bind].
      - rewrite IH. rewrite splice_step by exact Hout. reflexivity.
      - exact IH. }
    cbn [objectIter_outs]. unfold output_of in Hstep.
    destruct (type_eqb ot intType) eqn:Eint.
    { rewrite store_at_Some by exact Hout. cbn [mbind option_bind].
      apply Hstep. reflexivity. }
    destruct (type_eqb ot entityType) eqn:Eent.
    { rewrite (deref_object_at _ _ _ Ho). cbn [fmap option_fmap option_map fst mbind option_bind].
      rewrite store_at_Some by exact Hout. cbn [mbind option_bind].
      apply Hstep. reflexivity. }
    rewrite (deref_object_at _ _ _ Ho). cbn [fmap option_fmap option_map fst mbind option_bind].
    rewrite (getComponentValue_find o cs ot Hcs). cbn [mbind option_bind].
    destruct (List.find (fun v => type_eqb (vtype v) ot) cs) as [v|] eqn:Hfind.
    + rewrite store_at_Some by exact Hout. cbn [mbind option_bind].
      apply Hstep. reflexivity.
    + cbn [outputs_of]. unfold output_of. rewrite Eint, Eent, Hfind.
      cbn [mbind option_bind]. eauto.
Qed.

Lemma objectIter_notfound_spec n : forall ots out results,
  out + length ots <= length results ->
  objectIter_notfound n out ots results
  = Some (take out results ++ (Some <$> (notfound_output n <$> ots))
            ++ drop (out + length ots) results).
Proof.
  induction ots as [|ot ots IH]; intros out results Hlen.
  - simpl. rewrite Nat.add_0_r, take_drop. reflexivity.
  - simpl in Hlen. cbn [objectIter_notfound].
    rewrite store_at_Some by lia. cbn [mbind option_bind].
    rewrite IH by (rewrite length_insert; lia).
    rewrite splice_step by lia. reflexivity.
Qed.

(** Whether an object satisfies the outputs does not depend on its index. *)
Lemma outputs_of_None_idx idx idx' o cs ots :
  outputs_of idx o cs ots = None -> outputs_of idx' o cs ots = None.
Proof.
  induction ots as [|ot ots IH]; simpl; [discriminate|].
  unfold output_of.
  destruct (type_eqb ot intType); [|destruct (type_eqb ot entityType)];
    cbn [mbind option_bind].
  - destruct (outputs_of idx o cs ots); [discriminate|]. rewrite IH; reflexivity.
  - destruct (outputs_of idx o cs ots); [discriminate|]. rewrite IH; reflexivity.
  - destruct (List.find _ cs); cbn [mbind option_bind]; [|reflexivity].
    destruct (outputs_of idx o cs ots); [discriminate|]. rewrite IH; reflexivity.
Qed.

(** Every answer has the type of its output. *)
Lemma outputs_of_types idx o cs ots vs :
  outputs_of idx o cs ots = Some vs -> vtype <$> vs = ots.
Proof.
  revert vs. induction ots as [|ot ots IH]; intros vs; simpl.
  - intros [= <-]. reflexivity.
  - destruct (output_of idx o cs ot) as [v|] eqn:Hv; [|discriminate].
    cbn [mbind option_bind].
    destruct (outputs_of idx o cs ots) as [vs'|]; [|discriminate].
    intros [= <-]. rewrite fmap_cons, (IH vs' eq_refl). f_equal.
    unfold output_of in Hv.
    destruct (type_eqb ot intType) eqn:E1.
    { injection Hv as <-. apply type_eqb_eq in E1. auto. }
    destruct (type_eqb ot entityType) eqn:E2.
    { injection Hv as <-. apply type_eqb_eq in E2. auto. }
    apply List.find_some in Hv. destruct Hv as [_ Hv]. apply type_eqb_eq, Hv.
Qed.

Lemma notfound_output_type n ot : vtype (notfound_output n ot) = ot.
Proof.
  unfold notfound_output. destruct (type_eqb ot intType) eqn:E; [|reflexivity].
  apply type_eqb_eq in E. auto.
Qed.

(** Results of the declared types pass [MakeFunc] unchanged. *)
Lemma MakeFunc_return_typed outs vs :
  vtype <$> vs = outs -> MakeFunc_return outs (Some <$> vs) = Some vs.
Proof.
  revert outs. induction vs as [|v vs IH]; intros outs <-; [reflexivity|].
  rewrite !fmap_cons. cbn [MakeFunc_return mbind option_bind].
  rewrite AssignableTo_refl, (IH _ eq_refl). destruct v; reflexivity.
Qed.

Lemma objectIter_objects_skip m outs' n start rest : forall skipped i results,
  Forall (unsatisfied m outs') skipped ->
  length results = length (outs' ++ [boolType]) ->
  exists results',
    length results' = length results
    /\ objectIter_objects m (outs' ++ [boolType]) n start i (skipped ++ rest) results
       = objectIter_objects m (outs' ++ [boolType]) n start (i + length skipped)
           rest results'.
Proof.
  induction skipped as [|ob skipped IH]; intros i results Hall Hlen.
  - exists results. simpl. rewrite Nat.add_0_r. auto.
  - inversion Hall as [|? ? (o & cs & Ho & Hcs & Hnone) Hall']; subst.
    cbn [app objectIter_objects].
    rewrite length_app in *. cbn [length] in *.
    replace (length outs' + 1 - 1) with (length outs') by lia.
    rewrite take_app_length.
    pose proof (objectIter_outs_spec m (i + start) ob o cs Ho Hcs outs' 0 results
                  ltac:(lia)) as Hspec.
    rewrite (outputs_of_None_idx 0 (i + start) o cs outs' Hnone) in Hspec.
    destruct Hspec as (results1 & Heq & Hl1). rewrite Heq.
    destruct (IH (S i) results1 Hall') as (results' & Hl' & Heq').
    { rewrite ?length_app; simpl; lia. }
    exists results'. split; [lia|].
    rewrite Heq'. f_equal. simpl. lia.
Qed.

Lemma objectIter_objects_found m outs' n start i ob rest results o cs vs :
  object_at m ob = Some o ->
  Components o = Some <$> cs ->
  outputs_of (i + start) o cs outs' = Some vs ->
  length results = length (outs' ++ [boolType]) ->
  objectIter_objects m (outs' ++ [boolType]) n start i (ob :: rest) results
  = Some (Some <$> (vs ++ [ValueOf_bool true])).
Proof.
  intros Ho Hcs Hvs Hlen. cbn [objectIter_objects].
  rewrite length_app in *. cbn [length] in *.
  replace (length outs' + 1 - 1) with (length outs') by lia.
  rewrite take_app_length.
  pose proof (objectIter_outs_spec m (i + start) ob o cs Ho Hcs outs' 0 results
                ltac:(lia)) as Hspec.
  rewrite Hvs in Hspec. rewrite Hspec. rewrite take_0. cbn [app Nat.add].
  assert (Hvl : length vs = length outs').
  { rewrite <- (outputs_of_types _ _ _ _ _ Hvs), length_fmap. reflexivity. }
  destruct (drop (length outs') results) as [|x [|y tl]] eqn:Hdrop.
  - apply (f_equal length) in Hdrop. rewrite length_drop in Hdrop. simpl in Hdrop. lia.
  - rewrite decide_False by (rewrite length_app; simpl; lia).
    rewrite length_app, length_fmap. cbn [length].
    replace (length vs + 1 - 1) with (length (Some <$> vs) + 0)
      by (rewrite length_fmap; lia).
    rewrite store_at_Some by (rewrite length_app; simpl; lia).
    rewrite insert_app_r. rewrite fmap_app. reflexivity.
  - apply (f_equal length) in Hdrop. rewrite length_drop in Hdrop. simpl in Hdrop. lia.
Qed.

Lemma objectIter_start_offset ins args k :
  resume_offset ins args k -> objectIter_start ins args = Some (Z.of_nat k).
Proof.
  intros [(-> & ->)|[(-> & a & Ha & Hd)|(in0 & -> & Hk & ->)]]; simpl.
  - reflexivity.
  - rewrite Ha. simpl. rewrite Hd. reflexivity.
  - destruct (Kind_eqb (kind in0) Int) eqn:E; [|reflexivity].
    apply Kind_eqb_eq in E. contradiction.
Qed.



(* ===================================================================== *)
(** ** The dispatcher: a whole sweep *)
(* ===================================================================== *)

Lemma resolve_special now o cs ts :
  Forall special_param ts -> exists vs, resolve_params now o cs ts = Some vs.
Proof.
  induction 1 as [|t ts Ht _ (vs & IH)]; [exists []; reflexivity|].
  assert (Hv : exists v, resolve_param now o cs t = Some v).
  { unfold resolve_param.
    destruct Ht as [->|[->|[->|(Hk & v & Hmk)]]]; try (eexists; reflexivity).
    destruct (kind_Func_not_special t Hk) as (-> & -> & ->).
    rewrite (proj2 (Kind_eqb_eq _ _) Hk), Hmk. eauto. }
  destruct Hv as (v & Hv). exists (v :: vs). simpl. rewrite Hv, IH. reflexivity.
Qed.

Lemma tick_slot_total rt cs : forall i,
  exists r, tick_slot rt i (Some <$> cs) = Some r
    /\ forall j, r = Some j -> i <= j < i + length cs.
Proof.
  induction cs as [|c cs IH]; intros i.
  - exists None. split; [reflexivity|discriminate].
  - rewrite fmap_cons. cbn [tick_slot mbind option_bind].
    destruct (AssignableTo implements rt (vtype c)).
    + exists (Some i). split; [reflexivity|]. intros j [= <-]. simpl. lia.
    + destruct (IH (S i)) as (r & Hr & Hj). exists r. split; [exact Hr|].
      intros j Hrj. specialize (Hj j Hrj). simpl. lia.
Qed.

Lemma good_object_insert m (p : ptr) o' cs' ob :
  p < length (heap m) ->
  Components o' = Some <$> cs' ->
  len (components o') <= cap (components o') ->
  good_object m ob ->
  good_object (set_heap m (<[p := o']> (heap m))) ob.
Proof.
  intros Hp Hcs' Hcap' (o & cs & Ho & Hcs & Hcap).
  destruct ob as [q|]; [|discriminate]. simpl in Ho.
  destruct (decide (q = p)) as [->|Hne].
  - exists o', cs'. simpl. rewrite list_lookup_insert_eq by exact Hp. auto.
  - exists o, cs. simpl. rewrite list_lookup_insert_ne by auto. auto.
Qed.

(** The write-back keeps the collection and the objects good. *)
Lemma tick_write_back_kept a obs ob : forall rs m,
  collection_kept a obs m -> ob ∈ obs ->
  exists m', tick_write_back ob rs m = Some (tt, m') /\ collection_kept a obs m'.
Proof.
  induction rs as [|result rs IH]; intros m Hkept Hin; [exists m; auto|].
  destruct Hkept as [Harr Hgood].
  pose proof (proj1 (list.Forall_forall _ _) Hgood ob Hin) as (o & cs & Ho & Hcs & Hcap).
  cbn [tick_write_back]. unfold bindM at 1. rewrite (deref_object_at _ _ _ Ho).
  unfold Components in Hcs. rewrite Hcs.
  destruct (tick_slot_total (vtype result) cs 0) as (r & Hr & Hj).
  rewrite Hr. unfold bindM at 1. cbn [try retM].
  destruct r as [j|].
  - specialize (Hj j eq_refl).
    assert (Hlen : length cs = len (components o)).
    { rewrite <- (length_elems _ Hcap), Hcs, length_fmap. reflexivity. }
    destruct ob as [p|]; [|discriminate]. simpl in Ho.
    assert (Hp : p < length (heap m)) by (eapply lookup_lt_Some; eauto).
    unfold bindM at 1. unfold bindM at 1.
    rewrite store_at_Some by (unfold cap in Hcap; lia). cbn [try retM].
    unfold set_components. unfold bindM at 1, getM. unfold bindM at 1. cbn [try retM].
    unfold bindM at 1. rewrite Ho. cbn [try retM putM].
    apply IH; [|exact Hin]. split; [exact Harr|].
    eapply Forall_impl; [|exact Hgood]. intros ob' Hob'.
    apply (good_object_insert m p _ (<[j := result]> cs)); auto.
    + unfold Components, elems. simpl. rewrite take_insert_lt by lia.
      unfold elems in Hcs. rewrite Hcs, list_fmap_insert. reflexivity.
    + unfold cap. simpl. rewrite length_insert. exact Hcap.
  - unfold bindM at 1. cbn [retM]. apply IH; [split; assumption|exact Hin].
Qed.

Lemma called_objects_app tr tr' :
  called_objects (tr ++ tr') = called_objects tr ++ called_objects tr'.
Proof. apply omap_app. Qed.

Lemma tick_error_total w s vs rs m tr :
  exists rs' rep,
    tick_error w s (Some <$> vs) rs (State m tr) = Some (rs', State m (tr ++ rep))
    /\ called_objects rep = [].
Proof.
  unfold tick_error. destruct (list.last rs) as [v|].
  - destruct (type_eqb (vtype v) errorType).
    + destruct (negb (IsNil v)).
      * rewrite mapM_Interface_Some. cbn [try]. unfold handleSystemError.
        destruct (OnError w); eexists _, [_]; split; reflexivity.
      * eexists _, []. rewrite app_nil_r. split; reflexivity.
    + eexists _, []. rewrite app_nil_r. split; reflexivity.
  - eexists _, []. rewrite app_nil_r. split; reflexivity.
Qed.

(** One call: the system is called once for the object, and the
    collection is kept when the system keeps it. *)
Lemma tick_invoke_kept w s a obs ob vs m tr :
  (forall args m0, collection_kept a obs m0 ->
     exists rs m1, Func s args m0 = Some (rs, m1) /\ collection_kept a obs m1) ->
  collection_kept a obs m -> ob ∈ obs ->
  exists m' evs,
    tick_invoke w s ob (Some <$> vs) (State m tr) = Some (tt, State m' (tr ++ evs))
    /\ called_objects evs = [ob]
    /\ collection_kept a obs m'.
Proof.
  intros Hframe Hkept Hin.
  destruct (Hframe vs m Hkept) as (rs & m1 & Hcall & Hkept1).
  rewrite (tick_invoke_call w s ob vs m tr rs m1 Hcall).
  destruct (tick_error_total w s vs rs m1 (tr ++ [EvCall ob vs rs]))
    as (rs' & rep & Herr & Hrep).
  unfold bindM at 1. rewrite Herr.
  destruct (tick_write_back_kept a obs ob rs' m1 Hkept1 Hin) as (m' & Hwb & Hkept').
  unfold liftM. cbn [st_mem st_trace]. rewrite Hwb.
  exists m', (EvCall ob vs rs :: rep). rewrite <- app_assoc. split; [reflexivity|].
  split; [|exact Hkept'].
  change (EvCall ob vs rs :: rep) with ([EvCall ob vs rs] ++ rep).
  rewrite called_objects_app, Hrep. reflexivity.
Qed.

(** The sweep over indices [ixs] that show the objects [visited]. *)
Lemma tick_objects_once w s now argTypes a obs :
  Forall special_param argTypes ->
  (forall args m0, collection_kept a obs m0 ->
     exists rs m1, Func s args m0 = Some (rs, m1) /\ collection_kept a obs m1) ->
  forall ixs visited av m tr,
    Forall2 (fun i ob => obs !! i = Some ob) ixs visited ->
    length av = length argTypes ->
    collection_kept a obs m ->
    exists m' evs,
      tick_objects w s now argTypes a ixs av (State m tr)
        = Some (tt, State m' (tr ++ evs))
      /\ called_objects evs = visited
      /\ collection_kept a obs m'.
Proof.
  intros Hspecial Hframe. induction ixs as [|i ixs IH];
    intros visited av m tr Hvis Hlen Hkept.
  - inversion Hvis; subst. exists m, []. rewrite app_nil_r. auto.
  - inversion Hvis as [|? ob ? visited' Hi Hvis']; subst.
    destruct Hkept as [(cells & Ha & Htake) Hgood].
    assert (Hin : ob ∈ obs) by (eapply list_elem_of_lookup_2; eauto).
    assert (Hcell : cells !! i = Some ob).
    { rewrite <- Htake in Hi. rewrite lookup_take_Some in Hi. exact (proj1 Hi). }
    pose proof (proj1 (list.Forall_forall _ _) Hgood ob Hin) as (o & cs & Ho & Hcs & Hcap).
    destruct (resolve_special now o cs argTypes Hspecial) as (vs & Hres).
    rewrite (tick_objects_cons _ _ _ _ _ _ _ _ _ _ cells ob) by assumption.
    unfold bindM at 1.
    rewrite (tick_object_invoked w s now m tr ob o cs argTypes vs av) by assumption.
    destruct (tick_invoke_kept w s a obs ob vs m tr Hframe) as (m1 & evs1 & Hinv & Hev1 & Hkept1);
      [split; eauto|exact Hin|].
    unfold bindM at 1. rewrite Hinv. cbn [retM].
    destruct (IH visited' (Some <$> vs) m1 (tr ++ evs1) Hvis') as (m' & evs & Hrun & Hev & Hkept');
      [|exact Hkept1|].
    { rewrite length_fmap. apply (length_resolve_params _ _ _ _ _ Hres). }
    exists m', (evs1 ++ evs). rewrite app_assoc. split; [exact Hrun|].
    split; [|exact Hkept']. rewrite called_objects_app, Hev1, Hev. reflexivity.
Qed.

Lemma Forall2_seq_lookup {A} (l pre : list A) :
  Forall2 (fun i x => (pre ++ l) !! i = Some x) (seq (length pre) (length l)) l.
Proof.
  revert pre. induction l as [|x l IH]; intros pre; simpl; constructor.
  - rewrite lookup_app_r, Nat.sub_diag by lia. reflexivity.
  - specialize (IH (pre ++ [x])). rewrite length_app, <- app_assoc in IH.
    simpl in IH. rewrite Nat.add_1_r in IH. exact IH.
Qed.

(** C8 as the code has it.  A system all of whose parameters are the world
    handle, the entity identifier, the timestamp or a function type that
    [makeObjectIter] accepts, and whose function leaves the objects the
    sweep started with in place and well formed, is called exactly once
    for every object of the collection, in order, in one sweep; an object
    with no component is called like any other. *)
Theorem special_only_system_called_once_per_object (w : World) (s : System)
    (now : Time) (m : mem) (tr : list event) (argTypes outs : list type)
    (c : slice (option ptr)) :
  signature (Func_type s) = Some (argTypes, outs) ->
  Forall special_param argTypes ->
  load m (objects m) = Some c ->
  len c <= cap c ->
  Forall (good_object m) (elems c) ->
  (forall args m0, collection_kept (h_arr (objects m)) (elems c) m0 ->
     exists rs m1, Func s args m0 = Some (rs, m1)
       /\ collection_kept (h_arr (objects m)) (elems c) m1) ->
  exists st',
    tick s w now (State m tr) = Some (tt, st')
    /\ called_objects (st_trace st') = called_objects tr ++ elems c.
Proof.
  intros Hsig Hspecial Hload Hcap Hgood Hframe.
  unfold load in Hload.
  destruct (arrays m !! h_arr (objects m)) as [cells|] eqn:Ha; [|discriminate].
  injection Hload as <-. unfold cap in Hcap. cbn [arr len elems] in *.
  assert (Hlen : length (take (h_len (objects m)) cells) = h_len (objects m))
    by (rewrite length_take; lia).
  destruct (tick_objects_once w s now argTypes (h_arr (objects m))
              (take (h_len (objects m)) cells) Hspecial Hframe
              (seq 0 (h_len (objects m))) (take (h_len (objects m)) cells)
              (replicate (length argTypes) None) m tr)
    as (m' & evs & Hrun & Hev & _).
  - rewrite <- Hlen at 1. apply (Forall2_seq_lookup _ []).
  - apply length_replicate.
  - split; [|exact Hgood]. exists cells. split; [exact Ha|].
    rewrite Hlen. reflexivity.
  - exists (State m' (tr ++ evs)). split.
    + unfold tick. rewrite Hsig. unfold bindM at 1. cbn [try retM fst].
      unfold bindM at 1, getM. cbn [st_mem]. exact Hrun.
    + cbn [st_trace]. rewrite called_objects_app, Hev. reflexivity.
Qed.

(* ===================================================================== *)
(** ** [RemoveComponent] *)
(* ===================================================================== *)

(** Iterations that meet no component of the type leave the slice alone. *)
Lemma RemoveComponent_loop_no_match t snap ixs cs :
  Forall (fun i => exists c, snap !! i = Some c /\ TypeOf c <> t) ixs ->
  RemoveComponent_loop growslice t snap ixs cs = Some cs.
Proof.
  induction 1 as [|i ixs (c & Hc & Hne) _ IH]; [reflexivity|].
  cbn [RemoveComponent_loop]. rewrite Hc. cbn [mbind option_bind].
  destruct (rtype_eqb (TypeOf c) t) eqn:E; [|exact IH].
  apply rtype_eqb_eq in E. contradiction.
Qed.

(** The removal of the only component of a type, step by step: the
    iterations after the deletion read the cells shifted down and the stale
    last cell, none of which has the type. *)
Lemma RemoveComponent_one (ob : Object) (rep : iface) pre c post :
  len (components ob) <= cap (components ob) ->
  Components ob = pre ++ c :: post ->
  TypeOf c = TypeOf rep ->
  Forall (fun x => TypeOf x <> TypeOf rep) (pre ++ post) ->
  exists ob', RemoveComponent growslice ob rep = Some ob'
    /\ entity ob' = entity ob
    /\ Components ob' = pre ++ post.
Proof.
  intros Hcap Hcs Hc Hothers. unfold Components in *.
  set (cs := components ob) in *. set (t := TypeOf rep) in *.
  assert (Hlen : len cs = length pre + S (length post)).
  { rewrite <- (length_elems cs Hcap), Hcs, length_app. reflexivity. }
  assert (Hcell : forall i x, elems cs !! i = Some x -> arr cs !! i = Some x).
  { intros i x Hi. unfold elems in Hi. apply lookup_take_Some in Hi. tauto. }
  apply Forall_app in Hothers. destruct Hothers as [Hpre Hpost].
  destruct (delete_at_inside None cs (length pre) ltac:(lia) Hcap)
    as (cs' & Hdel & Hel & Hlen' & Hcap').
  assert (Hel' : elems cs' = pre ++ post).
  { rewrite Hel, Hcs, take_app_length. f_equal.
    change (c :: post) with ([c] ++ post). rewrite app_assoc.
    apply drop_app_length'. rewrite length_app. simpl. lia. }
  exists (with_components ob cs'). split; [|split; [reflexivity|exact Hel']].
  unfold RemoveComponent. fold cs. fold t.
  replace (seq 0 (len cs))
    with (seq 0 (length pre) ++ length pre :: seq (S (length pre)) (length post)).
  2:{ rewrite Hlen, seq_app. reflexivity. }
  assert (Hphase1 : forall ixs' s',
    RemoveComponent_loop growslice t (arr cs) (seq 0 (length pre) ++ ixs') s'
    = RemoveComponent_loop growslice t (arr cs) ixs' s').
  { intros ixs' s'.
    assert (Hgen : forall k l, Forall (fun x => TypeOf x <> t) l ->
              (forall i x, l !! i = Some x -> arr cs !! (k + i) = Some x) ->
              RemoveComponent_loop growslice t (arr cs) (seq k (length l) ++ ixs') s'
              = RemoveComponent_loop growslice t (arr cs) ixs' s').
    { intros k l Hl. revert k. induction Hl as [|x l Hx _ IH]; intros k Hlook.
      - reflexivity.
      - cbn [length seq app RemoveComponent_loop].
        rewrite <- (Nat.add_0_r k) at 1. rewrite (Hlook 0 x eq_refl).
        cbn [mbind option_bind].
        destruct (rtype_eqb (TypeOf x) t) eqn:E;
          [apply rtype_eqb_eq in E; contradiction|].
        apply IH. intros i y Hi. replace (S k + i) with (k + S i) by lia.
        apply Hlook. exact Hi. }
    apply (Hgen 0 pre Hpre). intros i x Hi. apply Hcell. rewrite Hcs.
    simpl. apply lookup_app_l_Some. exact Hi. }
  rewrite Hphase1. cbn [RemoveComponent_loop].
  rewrite (Hcell (length pre) c)
    by (rewrite Hcs; apply list_lookup_middle; reflexivity).
  cbn [mbind option_bind]. rewrite (proj2 (rtype_eqb_eq _ _) Hc), Hdel.
  rewrite RemoveComponent_loop_no_match; [reflexivity|].
  apply Forall_forall. intros j Hj. apply in_seq in Hj.
  assert (Hpost_j : exists x, post !! (j - S (length pre)) = Some x).
  { apply lookup_lt_is_Some_2. lia. }
  destruct (decide (j < len cs')) as [Hlt|Hge].
  - (* a cell shifted down *)
    destruct (lookup_lt_is_Some_2 (elems cs') j) as [x Hx].
    { rewrite length_elems by lia. exact Hlt. }
    exists x. split.
    + unfold elems in Hx. apply lookup_take_Some in Hx. tauto.
    + rewrite Hel' in Hx. rewrite lookup_app_r in Hx by lia.
      eapply (proj1 (list.Forall_forall _ _) Hpost).
      eapply list_elem_of_lookup_2. exact Hx.
  - (* the stale last cell *)
    assert (Hj' : j = len cs - 1) by lia.
    destruct Hpost_j as [x Hx].
    exists x. split.
    + unfold delete_at, slice_to, slice_from in Hdel.
      rewrite !decide_True in Hdel by (unfold cap in *; lia).
      cbn [mbind option_bind] in Hdel. unfold append in Hdel.
      rewrite decide_True in Hdel.
      2:{ unfold cap in *. simpl. rewrite length_drop, length_elems by exact Hcap. lia. }
      injection Hdel as <-. cbn [arr len].
      rewrite lookup_app_r by (rewrite length_take; lia).
      rewrite lookup_app_r.
      2:{ rewrite length_take, length_drop, length_elems by exact Hcap. lia. }
      rewrite lookup_drop.
      rewrite length_take, length_drop, length_elems by exact Hcap.
      cbn [len]. apply Hcell. rewrite Hcs.
      rewrite lookup_app_r by lia.
      match goal with
      | |- (c :: post) !! ?n = _ =>
          replace n with (S (j - S (length pre))) by (unfold cap in Hcap; lia)
      end.
      exact Hx. 
    + eapply (proj1 (list.Forall_forall _ _) Hpost).
      eapply list_elem_of_lookup_2. exact Hx.
Qed.

(** X11.  With a single component of the type the removal does what its name
    says: that component is gone and the others keep their order. *)
Lemma RemoveComponent_single (ob : Object) (rep : iface) pre c post :
  len (components ob) <= cap (components ob) ->
  Components ob = pre ++ c :: post ->
  TypeOf c = TypeOf rep ->
  Forall (fun x => TypeOf x <> TypeOf rep) (pre ++ post) ->
  exists ob', RemoveComponent growslice ob rep = Some ob'
    /\ entity ob' = entity ob
    /\ Components ob' = pre ++ post.
Proof. apply RemoveComponent_one. Qed.

(** C3 on the code.  [RemoveComponent] deletes from the slice it is
    ranging over.  With two adjacent components of the type the second
    deletion slices past the shortened length and the call panics; when
    another component follows them, the second duplicate has moved into
    the cell just visited and stays in the object. *)
Theorem RemoveComponent_adjacent_duplicates (e : Entity) (d1 d2 d3 d : data) :
  RemoveComponent growslice
    (mkObject e [Some (Val Velocity d1); Some (Val Velocity d2)])
    (Some (Val Velocity d)) = None
  /\ Components <$>
       RemoveComponent growslice
         (mkObject e [Some (Val Velocity d1); Some (Val Velocity d2);
                      Some (Val Position d3)])
         (Some (Val Velocity d))
     = Some [Some (Val Velocity d2); Some (Val Position d3)].
Proof. split; reflexivity. Qed.

(* ===================================================================== *)
(** ** More on the object collection *)
(* ===================================================================== *)

Lemma deref_inv m ob o m' :
  deref ob m = Some (o, m') -> m' = m /\ object_at m ob = Some o.
Proof.
  unfold deref, object_at. munfold. destruct ob as [p|]; simpl; [|discriminate].
  destruct (heap m !! p); simpl; [|discriminate]. intros [= <- <-]. auto.
Qed.

Lemma GetObject_loop_inv m e obs : forall r m',
  GetObject_loop e obs m = Some (r, m') ->
  m' = m
  /\ match r with
     | Some p => exists pre post o,
         obs = pre ++ Some p :: post /\ heap m !! p = Some o /\ entity o = e
         /\ Forall (other_object m e) pre
     | None => Forall (other_object m e) obs
     end.
Proof.
  induction obs as [|ob obs IH]; intros r m'.
  - intros [= <- <-]. auto.
  - cbn [GetObject_loop]. unfold bindM at 1.
    destruct (deref ob m) as [[o m1]|] eqn:Hd; [|discriminate].
    apply deref_inv in Hd. destruct Hd as [-> Ho].
    destruct (entity o =? e)%Z eqn:He.
    + intros [= <- <-]. split; [reflexivity|].
      destruct ob as [p|]; [|discriminate]. apply Z.eqb_eq in He.
      exists [], obs, o. repeat split; auto.
    + intros Hrest. destruct (IH r m' Hrest) as [-> Hr]. split; [reflexivity|].
      assert (Hother : other_object m e ob).
      { exists o. split; [exact Ho|]. apply Z.eqb_neq, He. }
      destruct r as [p|].
      * destruct Hr as (pre & post & o' & -> & Hp & He' & Hpre).
        exists (ob :: pre), post, o'. repeat split; auto.
      * constructor; assumption.
Qed.

Lemma GetObject_loop_absent m e obs :
  Forall (other_object m e) obs -> GetObject_loop e obs m = Some (None, m).
Proof.
  induction 1 as [|ob obs (o & Ho & Hne) _ IH]; [reflexivity|].
  cbn [GetObject_loop]. unfold bindM at 1. rewrite (deref_object_at _ _ _ Ho).
  apply Z.eqb_neq in Hne. rewrite Hne. exact IH.
Qed.

(** The answer of the search depends on the heap through the objects it
    meets only. *)
Lemma GetObject_loop_found_mono m m' e q extra obs :
  (forall ob o, object_at m ob = Some o -> object_at m' ob = Some o) ->
  GetObject_loop e obs m = Some (Some q, m) ->
  GetObject_loop e (obs ++ extra) m' = Some (Some q, m').
Proof.
  intros Hmono. induction obs as [|ob obs IH]; [discriminate|].
  cbn [app GetObject_loop]. unfold bindM at 1 2.
  destruct (deref ob m) as [[o m1]|] eqn:Hd; [|discriminate].
  apply deref_inv in Hd. destruct Hd as [-> Ho].
  rewrite (deref_object_at _ _ _ (Hmono _ _ Ho)).
  destruct (entity o =? e)%Z.
  - intros [= ->]. reflexivity.
  - exact IH.
Qed.

Lemma GetObject_loop_same_heap m m' e obs :
  heap m' = heap m ->
  fst <$> GetObject_loop e obs m' = fst <$> GetObject_loop e obs m.
Proof.
  intros Hheap. induction obs as [|ob obs IH]; [reflexivity|].
  cbn [GetObject_loop]. unfold bindM at 1 2. unfold deref. munfold.
  rewrite Hheap. destruct ob as [p|]; [|reflexivity].
  destruct (heap m !! p) as [o|]; [|reflexivity].
  destruct (entity o =? e)%Z; [reflexivity|exact IH].
Qed.

(** A cell whose object carries another identifier is invisible to the
    search. *)
Lemma GetObject_loop_skip m e pre ob post :
  other_object m e ob ->
  GetObject_loop e (pre ++ ob :: post) m = GetObject_loop e (pre ++ post) m.
Proof.
  intros (o & Ho & Hne). induction pre as [|x pre IH].
  - cbn [app GetObject_loop]. unfold bindM at 1.
    rewrite (deref_object_at _ _ _ Ho). apply Z.eqb_neq in Hne. rewrite Hne.
    reflexivity.
  - cbn [app GetObject_loop]. unfold bindM at 1 2.
    destruct (deref x m) as [[o' m1]|] eqn:Hd; [|reflexivity].
    apply deref_inv in Hd. destruct Hd as [-> _].
    destruct (entity o' =? e)%Z; [reflexivity|exact IH].
Qed.

Lemma load_collection m obs :
  collection m = Some obs ->
  exists s, load m (objects m) = Some s /\ elems s = obs.
Proof.
  unfold collection. destruct (load m (objects m)) as [s|]; [|discriminate].
  intros [= <-]. eauto.
Qed.

Lemma GetObject_collection m e obs :
  collection m = Some obs -> GetObject e m = GetObject_loop e obs m.
Proof.
  intros Hc. destruct (load_collection m obs Hc) as (s & Hload & <-).
  unfold GetObject. munfold. rewrite Hload. reflexivity.
Qed.

(** The deletion [RemoveObject] makes when it meets the identifier. *)
Lemma RemoveObject_deletes m e s pre ob post o :
  load m (objects m) = Some s -> len s <= cap s ->
  elems s = pre ++ ob :: post ->
  Forall (other_object m e) pre ->
  object_at m ob = Some o -> entity o = e ->
  exists s', RemoveObject e m = Some (tt, store_objects m (objects m) (s', false))
    /\ elems s' = pre ++ post.
Proof.
  intros Hload Hcap Helems Hpre Ho He.
  unfold RemoveObject. munfold. rewrite Hload. munfold. rewrite Helems.
  rewrite (RemoveObject_loop_present m e pre ob post o s 0) by assumption.
  simpl.
  assert (Hlen : length pre < len s).
  { rewrite <- (length_elems s Hcap), Helems, length_app. simpl. lia. }
  destruct (delete_at_inside None s (length pre) Hlen Hcap)
    as (s' & Hdel & Hel & _ & _).
  rewrite Hdel. exists s'. split; [reflexivity|].
  rewrite Hel, Helems, take_app_length. f_equal.
  change (ob :: post) with ([ob] ++ post). rewrite app_assoc.
  apply drop_app_length'. rewrite length_app. simpl. lia.
Qed.

(** X1.  [GetObject] is sound and complete: it never changes the memory; a
    pointer it returns is the first cell of the collection whose object
    carries the identifier, and it returns nil only when every object
    carries another identifier. *)
Theorem GetObject_sound (m m' : mem) (e : Entity) (r : option ptr) :
  GetObject e m = Some (r, m') ->
  m' = m
  /\ exists obs, collection m = Some obs
     /\ match r with
        | Some p => exists pre post o,
            obs = pre ++ Some p :: post /\ heap m !! p = Some o /\ entity o = e
            /\ Forall (other_object m e) pre
        | None => Forall (other_object m e) obs
        end.
Proof.
  unfold GetObject, collection. munfold.
  destruct (load m (objects m)) as [s|]; [|discriminate]. munfold.
  intros Hloop. destruct (GetObject_loop_inv m e (elems s) r m' Hloop) as [-> Hr].
  split; [reflexivity|]. exists (elems s). auto.
Qed.

(** X2.  After [RemoveObject] of an identifier that one object carried, a
    lookup of that identifier answers nil. *)
Theorem RemoveObject_then_GetObject (m : mem) (e : Entity)
    (s : slice (option ptr)) pre ob post o :
  load m (objects m) = Some s -> len s <= cap s ->
  elems s = pre ++ ob :: post ->
  Forall (other_object m e) (pre ++ post) ->
  object_at m ob = Some o -> entity o = e ->
  exists m', RemoveObject e m = Some (tt, m')
    /\ GetObject e m' = Some (None, m').
Proof.
  intros Hload Hcap Helems Hothers Ho He.
  pose proof Hothers as Hothers'. apply Forall_app in Hothers'.
  destruct Hothers' as [Hpre _].
  destruct (RemoveObject_deletes m e s pre ob post o Hload Hcap Helems Hpre Ho He)
    as (s' & Hrm & Hel).
  eexists. split; [exact Hrm|].
  rewrite (GetObject_collection _ e (pre ++ post)).
  - apply GetObject_loop_absent. eapply Forall_impl; [|exact Hothers].
    intros x (o' & Ho' & Hne). exists o'. split; [|exact Hne].
    rewrite (object_at_heap m) by apply heap_store_objects. exact Ho'.
  - rewrite (collection_store_objects m s) by exact Hload. simpl. rewrite Hel.
    reflexivity.
Qed.

(** X3.  [RemoveObject] of one identifier does not change what a lookup of any
    other identifier answers. *)
Theorem RemoveObject_keeps_other_lookups (m : mem) (e e' : Entity)
    (s : slice (option ptr)) pre ob post o :
  load m (objects m) = Some s -> len s <= cap s ->
  elems s = pre ++ ob :: post ->
  Forall (other_object m e) pre ->
  object_at m ob = Some o -> entity o = e ->
  e' <> e ->
  exists m', RemoveObject e m = Some (tt, m')
    /\ fst <$> GetObject e' m' = fst <$> GetObject e' m.
Proof.
  intros Hload Hcap Helems Hpre Ho He Hne.
  destruct (RemoveObject_deletes m e s pre ob post o Hload Hcap Helems Hpre Ho He)
    as (s' & Hrm & Hel).
  eexists. split; [exact Hrm|].
  rewrite (GetObject_collection _ e' (pre ++ post)).
  2:{ rewrite (collection_store_objects m s) by exact Hload. simpl. rewrite Hel.
      reflexivity. }
  rewrite (GetObject_collection m e' (pre ++ ob :: post)).
  2:{ unfold collection. rewrite Hload. simpl. rewrite Helems. reflexivity. }
  rewrite (GetObject_loop_skip m e' pre ob post).
  - apply GetObject_loop_same_heap, heap_store_objects.
  - exists o. split; [exact Ho|]. congruence.
Qed.

(** X4.  [AddObject] does not change what the identifiers found before resolve
    to, whatever identifier the added object carries. *)
Theorem AddObject_keeps_lookups (m : mem) (s : slice (option ptr))
    (p : ptr) (o : Object) :
  load m (objects m) = Some s -> len s <= cap s ->
  heap m !! p = Some o ->
  exists m', AddObject (Some p) m = Some (entity o, m')
    /\ forall e' q, GetObject e' m = Some (Some q, m) ->
                    GetObject e' m' = Some (Some q, m').
Proof.
  intros Hload Hcap Hp.
  set (r := append growslice None s [Some p]).
  set (m' := store_objects m (objects m) r).
  assert (Hheap : heap m' = heap m) by apply heap_store_objects.
  exists m'. split.
  - unfold AddObject. munfold. rewrite Hload. munfold. fold r. fold m'.
    unfold deref. munfold. rewrite Hheap, Hp. reflexivity.
  - intros e' q Hget.
    rewrite (GetObject_collection m e' (elems s)) in Hget
      by (unfold collection; rewrite Hload; reflexivity).
    rewrite (GetObject_collection m' e' (elems s ++ [Some p])).
    + apply (GetObject_loop_found_mono m m'); [|exact Hget].
      intros ob o' Hob. rewrite (object_at_heap m m') by exact Hheap. exact Hob.
    + unfold m'. rewrite (collection_store_objects m s) by exact Hload.
      unfold r. rewrite (proj1 (append_one_elems None s (Some p) Hcap)). reflexivity.
Qed.

(** X5.  Building a world: an object made by [NewObject] and added by
    [AddObject] gets the next value of the counter as its identifier, is
    found under it, leaves every earlier lookup as it was, and the world
    stays well formed. *)
Theorem NewObject_AddObject_GetObject (m : mem) (cs : list iface) :
  world_ok m ->
  (gid m < 2 ^ 64 - 1)%Z ->
  exists (p : ptr) m',
    (ob <- NewObject cs ;; e <- AddObject ob ;; retM (ob, e)) m
      = Some ((Some p, (gid m + 1)%Z), m')
    /\ GetObject (gid m + 1)%Z m' = Some (Some p, m')
    /\ (forall e' q, GetObject e' m = Some (Some q, m) ->
                     GetObject e' m' = Some (Some q, m'))
    /\ world_ok m'.
Proof.
  intros (Hgid & Hheap & s & Hload & Hcap & Hcells) Hmax.
  set (e := (gid m + 1)%Z).
  set (m1 := Mem e (heap m ++ [mkObject e cs]) (arrays m) (objects m)).
  set (r := append growslice None s [Some (length (heap m))]).
  set (m' := store_objects m1 (objects m1) r).
  assert (Hheap' : heap m' = heap m ++ [mkObject e cs]) by apply heap_store_objects.
  assert (Hnew : heap m' !! length (heap m) = Some (mkObject e cs)).
  { rewrite Hheap', lookup_app_r, Nat.sub_diag by lia. reflexivity. }
  assert (Hmono : forall ob o, object_at m ob = Some o -> object_at m' ob = Some o).
  { intros [q|] o Hq; [|discriminate]. simpl in *. rewrite Hheap'.
    apply lookup_app_l_Some. exact Hq. }
  assert (Hload1 : load m1 (objects m1) = Some s) by exact Hload.
  assert (Hcoll : collection m' = Some (elems s ++ [Some (length (heap m))])).
  { unfold m'. rewrite (collection_store_objects m1 s) by exact Hload1.
    unfold r. rewrite (proj1 (append_one_elems None s _ Hcap)). reflexivity. }
  exists (length (heap m)), m'. split; [|split; [|split]].
  - unfold NewObject, uint64_wrap. munfold. rewrite Z.mod_small by lia.
    fold e. fold m1. unfold AddObject. munfold.
    change (load m1 (objects m)) with (load m1 (objects m1)).
    rewrite Hload1. munfold.
    change (store_objects m1 (objects m)
              (append growslice None s [Some (length (heap m))])) with m'.
    rewrite (deref_object_at m' (Some (length (heap m))) (mkObject e cs))
      by exact Hnew.
    reflexivity.
  - rewrite (GetObject_collection m' e _ Hcoll).
    apply (GetObject_loop_first m' e _ (mkObject e cs)); [|exact Hnew|reflexivity].
    eapply Forall_impl; [|exact Hcells]. intros ob (q & -> & Hq). right.
    destruct (lookup_lt_is_Some_2 (heap m) q Hq) as [o' Ho'].
    exists o'. split; [apply Hmono; exact Ho'|].
    pose proof (proj1 (list.Forall_forall _ _) Hheap o'
                  (list_elem_of_lookup_2 _ _ _ Ho')) as Hrange.
    simpl in Hrange. unfold e. lia.
  - intros e' q Hget.
    rewrite (GetObject_collection m e' (elems s)) in Hget
      by (unfold collection; rewrite Hload; reflexivity).
    rewrite (GetObject_collection m' e' _ Hcoll).
    apply (GetObject_loop_found_mono m m' e' q _ _ Hmono Hget).
  - split; [|split].
    + unfold m', store_objects. destruct r.2; simpl; unfold e; lia.
    + assert (Hg : gid m' = e) by (unfold m', store_objects; destruct r.2; reflexivity).
      rewrite Hg, Hheap'. apply Forall_app. split.
      * eapply Forall_impl; [|exact Hheap]. simpl. intros o' Ho'. unfold e. lia.
      * constructor; [|constructor]. simpl. unfold e. lia.
    + destruct (load_collection m' _ Hcoll) as (s'' & Hload'' & Hel'').
      exists s''. split; [exact Hload''|]. split.
      * unfold m', store_objects in Hload''. unfold load in Hload''.
        pose proof (proj2 (append_one_elems None s (Some (length (heap m))) Hcap))
          as Hcap'. fold r in Hcap'.
        destruct r.2; simpl in Hload''.
        -- rewrite lookup_app_r, Nat.sub_diag in Hload'' by lia.
           injection Hload'' as <-. exact Hcap'.
        -- destruct (arrays m !! h_arr (objects m)) as [a0|] eqn:Ha.
           ++ rewrite list_lookup_insert_eq in Hload''
                by (eapply lookup_lt_Some; eauto).
              injection Hload'' as <-. exact Hcap'.
           ++ unfold load in Hload. rewrite Ha in Hload. discriminate.
      * rewrite Hel'', Hheap', length_app. simpl. apply Forall_app. split.
        -- eapply Forall_impl; [|exact Hcells]. intros ob (q & -> & Hq).
           exists q. split; [reflexivity|lia].
        -- constructor; [|constructor]. exists (length (heap m)).
           split; [reflexivity|lia].
Qed.

(* ===================================================================== *)
(** ** More on components *)
(* ===================================================================== *)

Lemma AddComponent_Components (ob : Object) (c : iface) :
  len (components ob) <= cap (components ob) ->
  Components (AddComponent growslice ob c) = Components ob ++ [c]
  /\ len (components (AddComponent growslice ob c))
     <= cap (components (AddComponent growslice ob c)).
Proof. intros Hcap. apply (append_one_elems None (components ob) c Hcap). Qed.

Lemma Component_loop_app_found t l l' :
  Exists (fun x => TypeOf x = t) l ->
  Component_loop t (l ++ l') = Component_loop t l.
Proof.
  induction 1 as [x l Hx|x l _ IH]; cbn [app Component_loop].
  - rewrite (proj2 (rtype_eqb_eq _ _) Hx). reflexivity.
  - destruct (rtype_eqb (TypeOf x) t); [reflexivity|exact IH].
Qed.

(** X8.  [AddComponent] appends: the components already there keep their
    places, a lookup that found a component before finds the same one, and
    a lookup of a type the object did not have finds the added component. *)
Theorem AddComponent_then_Component (ob : Object) (c : iface) :
  len (components ob) <= cap (components ob) ->
  Components (AddComponent growslice ob c) = Components ob ++ [c]
  /\ entity (AddComponent growslice ob c) = entity ob
  /\ (forall rep,
        Exists (fun x => TypeOf x = TypeOf rep) (Components ob) ->
        Component (AddComponent growslice ob c) rep = Component ob rep)
  /\ (forall rep,
        Forall (fun x => TypeOf x <> TypeOf rep) (Components ob) ->
        TypeOf c = TypeOf rep ->
        Component (AddComponent growslice ob c) rep = c).
Proof.
  intros Hcap. destruct (AddComponent_Components ob c Hcap) as [Hcs _].
  split; [exact Hcs|]. split; [reflexivity|]. unfold Components in Hcs. split.
  - intros rep Hex. unfold Component. rewrite Hcs.
    apply Component_loop_app_found, Hex.
  - intros rep Hnone Hc. unfold Component. rewrite Hcs.
    rewrite <- (app_nil_r [c]). apply Component_loop_first; assumption.
Qed.

(** X9.  Adding a component of a type the object does not have and removing
    that type again gives back the components the object had. *)
Theorem AddComponent_then_RemoveComponent (ob : Object) (c rep : iface) :
  len (components ob) <= cap (components ob) ->
  TypeOf c = TypeOf rep ->
  Forall (fun x => TypeOf x <> TypeOf rep) (Components ob) ->
  exists ob',
    RemoveComponent growslice (AddComponent growslice ob c) rep = Some ob'
    /\ entity ob' = entity ob
    /\ Components ob' = Components ob.
Proof.
  intros Hcap Hc Hnone.
  destruct (AddComponent_Components ob c Hcap) as [Hcs Hcap'].
  destruct (RemoveComponent_one (AddComponent growslice ob c) rep
              (Components ob) c [] Hcap' Hcs Hc) as (ob' & Hrm & He & Hcs').
  - rewrite app_nil_r. exact Hnone.
  - exists ob'. rewrite app_nil_r in Hcs'. auto.
Qed.

(** X10.  Removing a type the object has no component of changes nothing. *)
Theorem RemoveComponent_absent (ob : Object) (rep : iface) :
  len (components ob) <= cap (components ob) ->
  Forall (fun x => TypeOf x <> TypeOf rep) (Components ob) ->
  RemoveComponent growslice ob rep = Some ob.
Proof.
  intros Hcap Hnone. unfold RemoveComponent.
  rewrite RemoveComponent_loop_no_match.
  - destruct ob as [e cs]. reflexivity.
  - apply Forall_forall. intros i Hi. apply in_seq in Hi.
    destruct (lookup_lt_is_Some_2 (Components ob) i) as [x Hx].
    { unfold Components. rewrite length_elems by exact Hcap. lia. }
    exists x. split.
    + unfold Components, elems in Hx. apply lookup_take_Some in Hx. exact (proj1 Hx).
    + eapply (proj1 (list.Forall_forall _ _) Hnone), list_elem_of_lookup_2, Hx.
Qed.

(** X12.  On an object without nil components the lookup of the iterator and
    the exported lookup select the same component. *)
Theorem getComponentValue_is_Component (o : Object) (cs : list value)
    (t : type) (d : data) :
  Components o = Some <$> cs ->
  getComponentValue o t = Some (Component o (Some (Val t d))).
Proof.
  intros Hcs. rewrite (getComponentValue_find o cs t Hcs). f_equal.
  unfold Component. unfold Components in Hcs. rewrite Hcs. simpl. clear Hcs.
  induction cs as [|c cs IH]; [reflexivity|].
  rewrite fmap_cons. cbn [List.find Component_loop TypeOf fmap option_fmap option_map rtype_eqb].
  destruct (type_eqb (vtype c) t); [reflexivity|exact IH].
Qed.

(** The scans of the dispatcher and of the iterator call [Type()] on every
    component they pass, which panics on a nil one. *)
Lemma scans_panic_on_nil t pre post :
  (Forall (fun x => AssignableTo implements (vtype x) t = false) pre ->
   tick_component t ((Some <$> pre) ++ None :: post) = None)
  /\ (forall i,
      Forall (fun x => AssignableTo implements t (vtype x) = false) pre ->
      tick_slot t i ((Some <$> pre) ++ None :: post) = None)
  /\ (Forall (fun x => vtype x <> t) pre ->
      getComponentValue_loop t ((Some <$> pre) ++ None :: post) = None).
Proof.
  split; [|split].
  - induction 1 as [|x pre Hx _ IH]; [reflexivity|].
    rewrite fmap_cons. cbn [app tick_component mbind option_bind]. rewrite Hx. exact IH.
  - intros i Hpre. revert i. induction Hpre as [|x pre Hx _ IH]; intros i; [reflexivity|].
    rewrite fmap_cons. cbn [app tick_slot mbind option_bind]. rewrite Hx. apply IH.
  - induction 1 as [|x pre Hx _ IH]; [reflexivity|].
    rewrite fmap_cons. cbn [app getComponentValue_loop mbind option_bind].
    rewrite (type_eqb_neq _ _ Hx). exact IH.
Qed.

(** X13.  A nil component that the scan for the first parameter reaches before
    a match aborts the sweep with a panic; [Component], which compares
    [reflect.TypeOf], passes over it. *)
Theorem nil_component_aborts_sweep (w : World) (s : System) (now : Time)
    (m : mem) (tr : list event) (a i : nat) (ixs : list nat)
    (cells : list (option ptr)) (ob : option ptr) (o : Object)
    (pre : list value) (post : list iface) (t : type) (ts : list type)
    (av : list iface) :
  arrays m !! a = Some cells -> cells !! i = Some ob ->
  object_at m ob = Some o ->
  Components o = (Some <$> pre) ++ None :: post ->
  data_param t ->
  Forall (fun x => AssignableTo implements (vtype x) t = false) pre ->
  tick_objects w s now (t :: ts) a (i :: ixs) av (State m tr) = None
  /\ forall rep : value,
       Component o (Some rep)
       = Component_loop (Some (vtype rep)) ((Some <$> pre) ++ post).
Proof.
  intros Ha Hi Ho Hcs (Hw & He & Ht & Hk) Hpre. split.
  - rewrite (tick_objects_cons _ _ _ _ _ _ _ _ _ _ cells ob) by assumption.
    unfold bindM at 1. unfold tick_object. unfold bindM at 1.
    cbn [tick_args]. rewrite !type_eqb_neq by assumption.
    destruct (Kind_eqb (kind t) Reflect.Func) eqn:E;
      [apply Kind_eqb_eq in E; contradiction|].
    unfold bindM at 1. rewrite (liftM_deref _ _ _ _ Ho).
    unfold Components in Hcs. rewrite Hcs.
    rewrite (proj1 (scans_panic_on_nil t pre post) Hpre). reflexivity.
  - intros rep. unfold Component. unfold Components in Hcs. rewrite Hcs. simpl.
    clear. induction pre as [|x pre IH]; [reflexivity|].
    rewrite fmap_cons. cbn [app Component_loop].
    destruct (rtype_eqb (TypeOf (Some x)) (Some (vtype rep))); [reflexivity|exact IH].
Qed.

(* ===================================================================== *)
(** ** More on the dispatcher *)
(* ===================================================================== *)













(* ===================================================================== *)
(** ** More on iterators *)
(* ===================================================================== *)

Lemma outputs_of_Some_idx idx idx' o cs ots vs :
  outputs_of idx o cs ots = Some vs ->
  exists vs', outputs_of idx' o cs ots = Some vs'.
Proof.
  intros H. destruct (outputs_of idx' o cs ots) as [vs'|] eqn:E; [eauto|].
  rewrite (outputs_of_None_idx idx' idx _ _ _ E) in H. discriminate.
Qed.

(** Among good objects, either none has every component asked for, or
    there is a first one that has. *)
Lemma first_satisfied m ots : forall l,
  Forall (good_object m) l ->
  Forall (unsatisfied m ots) l
  \/ exists skipped ob rest o cs vs,
       l = skipped ++ ob :: rest /\ Forall (unsatisfied m ots) skipped
       /\ object_at m ob = Some o /\ Components o = Some <$> cs
       /\ outputs_of 0 o cs ots = Some vs.
Proof.
  induction 1 as [|ob l (o & cs & Ho & Hcs & _) _ IH]; [left; constructor|].
  destruct (outputs_of 0 o cs ots) as [vs|] eqn:E.
  - right. exists [], ob, l, o, cs, vs. repeat split; auto.
  - destruct IH as [Hall|(skipped & ob' & rest & o' & cs' & vs & -> & Hs & Ho' & Hcs' & Hvs)].
    + left. constructor; [exists o, cs; auto|exact Hall].
    + right. exists (ob :: skipped), ob', rest, o', cs', vs. repeat split; auto.
      constructor; [exists o, cs; auto|exact Hs].
Qed.

Lemma objectIter_run t ins outs args m s k :
  signature t = Some (ins, outs) ->
  resume_offset ins args k ->
  load m (objects m) = Some s ->
  k <= len s ->
  objectIter t args m
  = results' ← objectIter_objects m outs (len s) k 0 (drop k (elems s))
                 (replicate (length outs) None);
    MakeFunc_return outs results'.
Proof.
  intros Hsig Hoff Hload Hk.
  unfold objectIter. rewrite Hsig. cbn [mbind option_bind fst snd].
  rewrite (objectIter_start_offset _ _ _ Hoff). cbn [mbind option_bind].
  rewrite Hload. cbn [mbind option_bind].
  rewrite decide_True by lia. rewrite Nat2Z.id. reflexivity.
Qed.

Lemma objectIter_found_at t ins outs' args m s k skipped ob rest o cs vs :
  signature t = Some (ins, outs' ++ [boolType]) ->
  resume_offset ins args k ->
  load m (objects m) = Some s ->
  k <= len s ->
  drop k (elems s) = skipped ++ ob :: rest ->
  Forall (unsatisfied m outs') skipped ->
  object_at m ob = Some o ->
  Components o = Some <$> cs ->
  outputs_of (k + length skipped) o cs outs' = Some vs ->
  objectIter t args m = Some (vs ++ [ValueOf_bool true]).
Proof.
  intros Hsig Hoff Hload Hk Hdrop Hskip Ho Hcs Hvs.
  rewrite (objectIter_run t ins _ args m s k Hsig Hoff Hload Hk), Hdrop.
  destruct (objectIter_objects_skip m outs' (len s) k (ob :: rest) skipped 0
              (replicate (length (outs' ++ [boolType])) None) Hskip)
    as (results' & Hl & ->); [apply length_replicate|].
  rewrite length_replicate in Hl.
  rewrite (objectIter_objects_found m outs' (len s) k (0 + length skipped)
             ob rest results' o cs vs Ho Hcs); auto.
  - cbn [mbind option_bind]. apply MakeFunc_return_typed.
    rewrite fmap_app, (outputs_of_types _ _ _ _ _ Hvs). reflexivity.
  - rewrite <- Hvs. f_equal. lia.
Qed.

Lemma objectIter_none_from t ins outs' args m s k :
  signature t = Some (ins, outs' ++ [boolType]) ->
  resume_offset ins args k ->
  load m (objects m) = Some s ->
  k <= len s ->
  Forall (unsatisfied m outs') (drop k (elems s)) ->
  objectIter t args m
  = Some ((notfound_output (len s) <$> outs') ++ [ValueOf_bool false]).
Proof.
  intros Hsig Hoff Hload Hk Hnone.
  rewrite (objectIter_run t ins _ args m s k Hsig Hoff Hload Hk).
  destruct (objectIter_objects_skip m outs' (len s) k [] (drop k (elems s)) 0
              (replicate (length (outs' ++ [boolType])) None) Hnone)
    as (results' & Hl & Heq); [apply length_replicate|].
  rewrite app_nil_r in Heq. rewrite Heq. cbn [objectIter_objects].
  rewrite length_replicate in Hl.
  rewrite objectIter_notfound_spec by lia.
  rewrite take_0. cbn [app Nat.add]. rewrite drop_ge, app_nil_r by lia.
  cbn [mbind option_bind]. rewrite MakeFunc_return_typed.
  - rewrite fmap_app. reflexivity.
  - rewrite <- list_fmap_compose. clear.
    induction (outs' ++ [boolType]) as [|ot l IH]; [reflexivity|].
    rewrite fmap_cons. cbn [compose]. rewrite notfound_output_type. f_equal. exact IH.
Qed.

(** X21.  An iterator that takes the resume offset, called on a collection of
    objects without nil components, returns exactly when the offset is
    between [0] and the length of the collection; with any other offset
    the call panics. *)
Theorem objectIter_returns_iff_offset_in_range (t : type) (outs' : list type)
    (args : list value) (a : value) (z : Z) (m : mem) (s : slice (option ptr)) :
  signature t = Some ([intType], outs' ++ [boolType]) ->
  args !! 0 = Some a ->
  vdata a = DInt z ->
  load m (objects m) = Some s ->
  len s <= cap s ->
  Forall (good_object m) (elems s) ->
  is_Some (objectIter t args m) <-> (0 <= z <= Z.of_nat (len s))%Z.
Proof.
  intros Hsig Ha Hz Hload Hcap Hgood. split.
  - intros [r Hr]. unfold objectIter in Hr. rewrite Hsig in Hr.
    cbn [mbind option_bind fst snd objectIter_start] in Hr.
    change (Kind_eqb (kind intType) Int) with true in Hr.
    rewrite Ha in Hr. cbn [mbind option_bind] in Hr.
    rewrite type_eqb_refl, Hz in Hr. cbn [mbind option_bind] in Hr.
    rewrite Hload in Hr. cbn [mbind option_bind] in Hr.
    destruct (decide (0 <= z <= Z.of_nat (len s))%Z) as [Hin|]; [exact Hin|discriminate].
  - intros Hin.
    assert (Hoff : resume_offset [intType] args (Z.to_nat z)).
    { right. left. split; [reflexivity|]. exists a. split; [exact Ha|].
      rewrite Z2Nat.id by lia. exact Hz. }
    assert (Hk : Z.to_nat z <= len s) by lia.
    destruct (first_satisfied m outs' (drop (Z.to_nat z) (elems s)))
      as [Hnone|(skipped & ob & rest & o & cs & vs0 & Hdrop & Hskip & Ho & Hcs & Hvs0)].
    + apply Forall_drop. exact Hgood.
    + rewrite (objectIter_none_from t _ outs' args m s _ Hsig Hoff Hload Hk Hnone).
      eauto.
    + destruct (outputs_of_Some_idx 0 (Z.to_nat z + length skipped) _ _ _ _ Hvs0)
        as [vs Hvs].
      rewrite (objectIter_found_at t _ outs' args m s _ skipped ob rest o cs vs
                 Hsig Hoff Hload Hk Hdrop Hskip Ho Hcs Hvs).
      eauto.
Qed.

Lemma omap_row_of_unsatisfied m ots : forall skipped k,
  Forall (unsatisfied m ots) skipped ->
  omap (row_of m ots) (zip (seq k (length skipped)) skipped) = [].
Proof.
  induction skipped as [|ob skipped IH]; intros k Hall; [reflexivity|].
  inversion Hall as [|? ? (o & cs & Ho & Hcs & Hnone) Hall']; subst.
  cbn [length seq zip_with omap list_omap].
  unfold row_of at 1. cbn [fst snd]. rewrite Ho. cbn [mbind option_bind].
  rewrite Hcs, mapM_id_Some. cbn [mbind option_bind].
  rewrite (outputs_of_None_idx 0 k _ _ _ Hnone). cbn [mbind option_bind].
  apply IH. exact Hall'.
Qed.

Lemma int_wrap_small z : (- 2 ^ 63 <= z < 2 ^ 63)%Z -> int_wrap z = z.
Proof. intros Hz. unfold int_wrap. rewrite Z.mod_small by lia. lia. Qed.

Lemma query_loop_from t outs' m s :
  signature t = Some ([intType], intType :: outs' ++ [boolType]) ->
  load m (objects m) = Some s ->
  len s <= cap s ->
  (Z.of_nat (len s) < 2 ^ 63)%Z ->
  Forall (good_object m) (elems s) ->
  forall fuel k, k <= len s -> len s - k < fuel ->
    query_loop fuel t (Z.of_nat k) m
    = Some (true, omap (row_of m (intType :: outs'))
                    (zip (seq k (len s - k)) (drop k (elems s)))).
Proof.
  intros Hsig Hload Hcap Hbound Hgood.
  pose proof (length_elems s Hcap) as Hlen.
  induction fuel as [|fuel IH]; intros k Hk Hfuel; [lia|].
  assert (Hoff : resume_offset [intType] [ValueOf_int (Z.of_nat k)] k).
  { right. left. split; [reflexivity|]. exists (ValueOf_int (Z.of_nat k)).
    split; reflexivity. }
  assert (Hdl : length (drop k (elems s)) = len s - k)
    by (rewrite length_drop; lia).
  cbn [query_loop].
  destruct (first_satisfied m (intType :: outs') (drop k (elems s)))
    as [Hnone|(skipped & ob & rest & o & cs & vs0 & Hdrop & Hskip & Ho & Hcs & Hvs0)].
  - apply Forall_drop. exact Hgood.
  - rewrite (objectIter_none_from t _ (intType :: outs') _ m s k Hsig Hoff Hload Hk Hnone).
    cbn [mbind option_bind]. rewrite last_snoc. cbn [mbind option_bind].
    cbn [ValueOf_bool vdata]. rewrite <- Hdl.
    rewrite (omap_row_of_unsatisfied m _ _ k Hnone). reflexivity.
  - destruct (outputs_of_Some_idx 0 (k + length skipped) _ _ _ _ Hvs0) as [vs Hvs].
    rewrite (objectIter_found_at t _ (intType :: outs') _ m s k skipped ob rest o cs vs
               Hsig Hoff Hload Hk Hdrop Hskip Ho Hcs Hvs).
    cbn [mbind option_bind]. rewrite last_snoc. cbn [mbind option_bind].
    cbn [ValueOf_bool vdata].
    pose proof Hvs as Hhead. cbn [outputs_of] in Hhead.
    unfold output_of at 1 in Hhead. rewrite type_eqb_refl in Hhead.
    cbn [mbind option_bind] in Hhead.
    destruct (outputs_of (k + length skipped) o cs outs') as [vs'|]; [|discriminate].
    cbn [mbind option_bind] in Hhead. injection Hhead as <-.
    cbn [app lookup list_lookup mbind option_bind ValueOf_int vdata].
    rewrite Hdrop, length_app in Hdl. cbn [length] in Hdl.
    rewrite int_wrap_small by lia.
    replace (Z.of_nat (k + length skipped) + 1)%Z
      with (Z.of_nat (S (k + length skipped))) by lia.
    rewrite IH by lia. cbn [mbind option_bind fst snd]. f_equal. f_equal.
    assert (Hrest : drop (S (k + length skipped)) (elems s) = rest).
    { replace (S (k + length skipped)) with (k + S (length skipped)) by lia.
      rewrite <- drop_drop, Hdrop.
      change (ob :: rest) with ([ob] ++ rest). rewrite app_assoc.
      apply drop_app_length'. rewrite length_app. simpl. lia. }
    rewrite Hrest, Hdrop.
    replace (len s - k) with (length skipped + S (length rest)) by lia.
    replace (len s - S (k + length skipped)) with (length rest) by lia.
    rewrite seq_app, zip_with_app by (rewrite length_seq; reflexivity).
    rewrite omap_app, (omap_row_of_unsatisfied m _ _ k Hskip).
    cbn [app seq zip_with omap list_omap].
    unfold row_of at 2. cbn [fst snd]. rewrite Ho. cbn [mbind option_bind].
    rewrite Hcs, mapM_id_Some. cbn [mbind option_bind].
    rewrite Hvs. cbn [mbind option_bind]. reflexivity.
Qed.

(** X22.  The loop of [TestQueryAll], started at offset [0] and resumed each
    time at the index answered plus one, ends after at most one call
    more than the collection has objects, and its body has then seen,
    in the order of the collection and each exactly once, the rows of
    the objects that have a component of every type asked for. *)
Theorem query_loop_enumerates (t : type) (outs' : list type) (m : mem)
    (s : slice (option ptr)) (fuel : nat) :
  signature t = Some ([intType], intType :: outs' ++ [boolType]) ->
  load m (objects m) = Some s ->
  len s <= cap s ->
  (Z.of_nat (len s) < 2 ^ 63)%Z ->
  Forall (good_object m) (elems s) ->
  len s < fuel ->
  query_loop fuel t 0 m
  = Some (true, omap (row_of m (intType :: outs'))
                  (zip (seq 0 (len s)) (elems s))).
Proof.
  intros Hsig Hload Hcap Hbound Hgood Hfuel.
  pose proof (query_loop_from t outs' m s Hsig Hload Hcap Hbound Hgood fuel 0) as H.
  rewrite Nat.sub_0_r, drop_0 in H. apply H; lia.
Qed.

(* ===================================================================== *)
(** ** The name of a system, and sweeps over an empty world *)
(* ===================================================================== *)

Lemma LastIndex_dot_spec name : forall i found,
  (dotless name /\ LastIndex_dot name i found = found)
  \/ exists pre suf,
       name = pre +:+ "." +:+ suf /\ dotless suf
       /\ LastIndex_dot name i found = Some (i + String.length pre).
Proof.
  induction name as [|c name IH]; intros i found; [left; split; [exact I|reflexivity]|].
  cbn [LastIndex_dot]. destruct (Ascii.eqb c ".") eqn:Ec.
  - apply Ascii.eqb_eq in Ec. subst c.
    destruct (IH (S i) (Some i)) as [[Hd Hr]|(pre & suf & Hn & Hd & Hr)].
    + right. exists EmptyString, name. split; [reflexivity|]. split; [exact Hd|].
      rewrite Hr. simpl. f_equal. lia.
    + right. exists (String.String "." pre), suf. split; [rewrite Hn; reflexivity|].
      split; [exact Hd|]. rewrite Hr. simpl. f_equal. lia.
  - apply Ascii.eqb_neq in Ec.
    destruct (IH (S i) found) as [[Hd Hr]|(pre & suf & Hn & Hd & Hr)].
    + left. split; [split; assumption|exact Hr].
    + right. exists (String.String c pre), suf. split; [rewrite Hn; reflexivity|].
      split; [exact Hd|]. rewrite Hr. simpl. f_equal. lia.
Qed.

Lemma substring_all name : String.substring 0 (String.length name) name = name.
Proof. induction name as [|c name IH]; [reflexivity|]. simpl. f_equal. exact IH. Qed.

Lemma substring_after_dot pre suf :
  String.substring (String.length pre + 1)
    (String.length (pre +:+ "." +:+ suf) - (String.length pre + 1))
    (pre +:+ "." +:+ suf) = suf.
Proof.
  induction pre as [|c pre IH].
  - simpl. rewrite Nat.sub_0_r. apply substring_all.
  - simpl. exact IH.
Qed.

(** X20.  The name a system is reported under: its [Name] when that is set;
    otherwise the name of its function from after the last dot on, which
    is the whole name when it has no dot.  The name so derived has no dot. *)
Theorem display_name_after_last_dot (s : System) :
  (Name s <> EmptyString /\ display_name s = Name s)
  \/ (Name s = EmptyString
      /\ dotless (display_name s)
      /\ (Func_name s = display_name s
          \/ exists pre, Func_name s = pre +:+ "." +:+ display_name s)).
Proof.
  unfold display_name. destruct (String.eqb (Name s) EmptyString) eqn:E.
  - right. apply String.eqb_eq in E. split; [exact E|].
    destruct (LastIndex_dot_spec (Func_name s) 0 None)
      as [[Hd Hr]|(pre & suf & Hn & Hd & Hr)].
    + rewrite Hr. split; [exact Hd|]. left. reflexivity.
    + rewrite Hr. cbn [Nat.add].
      assert (Hsub : String.substring (String.length pre + 1)
                       (String.length (Func_name s) - (String.length pre + 1))
                       (Func_name s) = suf)
        by (rewrite Hn; apply substring_after_dot).
      rewrite Hsub. split; [exact Hd|]. right. exists pre. exact Hn.
  - left. apply String.eqb_neq in E. split; [exact E|reflexivity].
Qed.

(** X19.  A sweep over a collection without objects: it panics when the
    system's [Func] is not a function, and otherwise calls nothing and
    changes nothing. *)
Theorem tick_on_empty_collection (w : World) (s : System) (now : Time)
    (m : mem) (tr : list event) (c : slice (option ptr)) :
  load m (objects m) = Some c ->
  len c = 0 ->
  tick s w now (State m tr)
  = if Kind_eqb (kind (Func_type s)) Reflect.Func then Some (tt, State m tr)
    else None.
Proof.
  intros Hload Hlen. unfold load in Hload.
  destruct (arrays m !! h_arr (objects m)) as [cells|]; [|discriminate].
  injection Hload as <-. cbn [len] in Hlen.
  unfold tick. destruct (signature (Func_type s)) as [[ins outs]|] eqn:Hsig.
  - rewrite (signature_kind _ _ _ Hsig). cbn [Kind_eqb].
    unfold bindM at 1. cbn [try retM]. unfold bindM at 1, getM. cbn [st_mem].
    rewrite Hlen. reflexivity.
  - destruct (Kind_eqb (kind (Func_type s)) Reflect.Func) eqn:Hk; [|reflexivity].
    assert (Hf : kind (Func_type s) = Reflect.Func)
      by (destruct (kind (Func_type s)); try discriminate; reflexivity).
    destruct (kind_Func_signature _ Hf) as (ins & outs & Hs). congruence.
Qed.

(** X7.  [NewWorld] gives a world without callback and without systems over an
    empty collection: no identifier is found in it, removing one changes
    nothing, and the objects and the counter of identifiers are as they
    were. *)
Theorem NewWorld_is_empty (m : mem) :
  exists w m',
    NewWorld m = Some (w, m')
    /\ OnError w = false /\ systems w = []
    /\ collection m' = Some []
    /\ heap m' = heap m /\ gid m' = gid m
    /\ (forall e, GetObject e m' = Some (None, m'))
    /\ (forall e, RemoveObject e m' = Some (tt, m')).
Proof.
  eexists _, _. split; [reflexivity|]. cbn [OnError systems heap gid].
  assert (Hload : forall g h (a : list (list (option ptr))),
            load (Mem g h (a ++ [[]]) (Header (length a) 0)) (Header (length a) 0)
            = Some (Slice [] 0)).
  { intros g h a. unfold load. cbn [arrays h_arr h_len].
    rewrite lookup_app_r, Nat.sub_diag by lia. reflexivity. }
  repeat split.
  - unfold collection. cbn [objects]. rewrite Hload. reflexivity.
  - intros e. unfold GetObject. munfold. rewrite Hload. reflexivity.
  - intros e. unfold RemoveObject. munfold. rewrite Hload. reflexivity.
Qed.

(* ===================================================================== *)
(** ** Removal of objects during a sweep *)
(* ===================================================================== *)

Lemma object_at_same_heap m m0 ob :
  heap m = heap m0 -> object_at m ob = object_at m0 ob.
Proof. intros H. unfold object_at. rewrite H. reflexivity. Qed.

Lemma other_object_same_heap m m0 e l :
  heap m = heap m0 ->
  Forall (other_object m0 e) l -> Forall (other_object m e) l.
Proof.
  intros H Hall. eapply Forall_impl; [|exact Hall]. simpl.
  intros ob (o & Ho & Hne). exists o.
  rewrite (object_at_same_heap _ _ _ H). auto.
Qed.

(** In a collection of objects with distinct identifiers, the objects
    before an object do not carry its identifier. *)
Lemma distinct_others m pre ob post o :
  NoDup (entity_at m <$> (pre ++ ob :: post)) ->
  Forall (good_object m) pre ->
  object_at m ob = Some o ->
  Forall (other_object m (entity o)) pre.
Proof.
  intros Hnd Hgood Ho. rewrite fmap_app, fmap_cons in Hnd.
  apply list.NoDup_app in Hnd as (_ & Hdisj & _).
  apply list.Forall_forall. intros c Hc.
  pose proof (proj1 (list.Forall_forall _ _) Hgood c Hc) as (oc & cs & Hoc & _).
  exists oc. split; [exact Hoc|]. intros Heq.
  apply (Hdisj (entity_at m c)).
  - apply list_elem_of_fmap_2. exact Hc.
  - unfold entity_at. rewrite Hoc, Ho. cbn [fmap option_fmap option_map].
    rewrite Heq. left.
Qed.

Lemma RemoveObject_nowhere m e s :
  load m (objects m) = Some s ->
  Forall (other_object m e) (elems s) ->
  RemoveObject e m = Some (tt, m).
Proof.
  intros Hload Hall. unfold RemoveObject. unfold bindM at 1, getM.
  unfold bindM at 1. rewrite Hload. cbn [try retM].
  apply RemoveObject_loop_absent. exact Hall.
Qed.

(** The deletion idiom on the array: the cells after [i] move down by
    one, and the cell that was the last of the slice keeps its content. *)
Lemma delete_at_arr {A} (zero : A) (s : slice A) i :
  i < len s -> len s <= cap s ->
  delete_at growslice zero s i
  = Some (Slice (take i (arr s) ++ drop (S i) (take (len s) (arr s))
                   ++ drop (len s - 1) (arr s)) (len s - 1), false).
Proof.
  intros Hi Hcap. unfold delete_at, slice_to, slice_from, cap in *.
  rewrite decide_True by lia. cbn [mbind option_bind].
  rewrite decide_True by lia. cbn [mbind option_bind].
  unfold append, elems, cap. cbn [arr len].
  rewrite length_drop, length_take.
  rewrite decide_True by lia.
  replace (i + (len s `min` length (arr s) - S i)) with (len s - 1) by lia.
  reflexivity.
Qed.

(** [RemoveObject] of the object at the head of [x :: rest], in a
    collection [pre ++ x :: rest] whose last object is [z]. *)
Lemma RemoveObject_shifts m a pre x rest z spare o :
  arrays m !! a = Some (pre ++ x :: rest ++ spare) ->
  objects m = Header a (length pre + S (length rest)) ->
  list.last (x :: rest) = Some z ->
  object_at m x = Some o ->
  Forall (other_object m (entity o)) pre ->
  RemoveObject (entity o) m
  = Some (tt, Mem (gid m) (heap m)
                (<[a := pre ++ rest ++ z :: spare]> (arrays m))
                (Header a (length pre + length rest))).
Proof.
  intros Ha Hobj Hlast Ho Hpre.
  set (s := Slice (pre ++ x :: rest ++ spare) (length pre + S (length rest))).
  assert (Hload : load m (objects m) = Some s).
  { unfold load. rewrite Hobj. cbn [h_arr h_len]. rewrite Ha. reflexivity. }
  assert (Helems : elems s = pre ++ x :: rest).
  { unfold elems, s. cbn [arr len].
    replace (pre ++ x :: rest ++ spare) with ((pre ++ x :: rest) ++ spare)
      by (rewrite <- app_assoc; reflexivity).
    apply take_app_length'. rewrite length_app. simpl. lia. }
  unfold RemoveObject. unfold bindM at 1, getM. unfold bindM at 1.
  rewrite Hload. cbn [try retM]. rewrite Helems.
  rewrite (RemoveObject_loop_present m (entity o) pre x rest o s 0 Hpre Ho eq_refl Hload).
  rewrite delete_at_arr.
  - unfold store_objects. cbn [fst snd arr len]. rewrite Hobj. cbn [h_arr].
    do 3 f_equal.
    + f_equal. unfold s. cbn [arr len Nat.add].
      rewrite take_app_length.
      replace (take (length pre + S (length rest)) (pre ++ x :: rest ++ spare))
        with (pre ++ x :: rest) by (symmetry; exact Helems).
      assert (H1 : drop (S (length pre)) (pre ++ x :: rest) = rest).
      { change (x :: rest) with ([x] ++ rest). rewrite (app_assoc pre [x] rest).
        apply drop_app_length'. rewrite length_app. simpl. lia. }
      assert (H2 : drop (length pre + S (length rest) - 1) (pre ++ x :: rest ++ spare)
                   = z :: spare).
      { apply last_Some in Hlast as [l' Hl'].
        assert (Hlen : length (x :: rest) = length (l' ++ [z])) by (rewrite Hl'; reflexivity).
        rewrite length_app in Hlen. simpl in Hlen.
        change (x :: rest ++ spare) with ((x :: rest) ++ spare). rewrite Hl'.
        rewrite <- (app_assoc l' [z] spare), (app_assoc pre l').
        apply drop_app_length'. rewrite length_app. lia. }
      rewrite H1, H2. reflexivity.
    + unfold s. cbn [len]. f_equal. lia.
  - unfold s. cbn [len]. lia.
  - unfold s, cap. cbn [arr len]. rewrite !length_app. simpl. rewrite length_app. lia.
Qed.

(** One step of the sweep of [self_destruct]. *)
Lemma self_destruct_visit w now a m tr cells i ixs av ob o cs m1 :
  arrays m !! a = Some cells ->
  cells !! i = Some ob ->
  object_at m ob = Some o ->
  Components o = Some <$> cs ->
  length av = 2 ->
  RemoveObject (entity o) m = Some (tt, m1) ->
  tick_objects w self_destruct now [worldType; entityType] a (i :: ixs) av (State m tr)
  = tick_objects w self_destruct now [worldType; entityType] a ixs
      [Some ValueOf_world; Some (ValueOf_entity (entity o))]
      (State m1 (tr ++ [EvCall ob [ValueOf_world; ValueOf_entity (entity o)] []])).
Proof.
  intros Ha Hi Ho Hcs Hav Hrm.
  rewrite (tick_objects_cons _ _ _ _ _ _ _ _ _ _ cells ob) by assumption.
  unfold bindM at 1.
  rewrite (tick_object_invoked w self_destruct now m tr ob o cs
             [worldType; entityType] [ValueOf_world; ValueOf_entity (entity o)] av
             Ho Hcs eq_refl Hav).
  unfold bindM at 1.
  rewrite (tick_invoke_call w self_destruct ob _ m tr [] m1).
  - unfold bindM at 1, tick_error.
    cbn [list.last retM liftM tick_write_back st_mem st_trace]. reflexivity.
  - cbn [self_destruct Func ValueOf_world ValueOf_entity]. unfold bindM at 1.
    rewrite Hrm. reflexivity.
Qed.

(** Visits of cells that hold an object no longer in the collection. *)
Lemma self_destruct_stale w now a m cells z oz csz s :
  arrays m !! a = Some cells ->
  object_at m z = Some oz ->
  Components oz = Some <$> csz ->
  load m (objects m) = Some s ->
  Forall (other_object m (entity oz)) (elems s) ->
  forall c i av tr,
    (forall j, i <= j < i + c -> cells !! j = Some z) ->
    length av = 2 ->
    exists tr',
      tick_objects w self_destruct now [worldType; entityType] a (seq i c) av
        (State m tr) = Some (tt, State m tr').
Proof.
  intros Ha Hz Hcs Hload Hothers. induction c as [|c IH]; intros i av tr Hcells Hav.
  - exists tr. reflexivity.
  - cbn [seq].
    assert (Hi : cells !! i = Some z) by (apply Hcells; lia).
    rewrite (self_destruct_visit w now a m tr cells i (seq (S i) c) av z oz csz m
               Ha Hi Hz Hcs Hav (RemoveObject_nowhere m _ s Hload Hothers)).
    apply IH; [|reflexivity]. intros j Hj. apply Hcells. lia.
Qed.

Lemma stale_cells {A} (front : list A) z k spare j :
  length front <= j < length front + k ->
  (front ++ replicate k z ++ spare) !! j = Some z.
Proof.
  intros Hj. rewrite lookup_app_r by lia.
  rewrite lookup_app_l by (rewrite length_replicate; lia).
  apply lookup_replicate_2. lia.
Qed.

(** The sweep of [self_destruct] from the state it is in after some
    visits: [kept] are the objects passed over so far, [R] the objects
    the sweep has not reached, and the cells behind them hold the last
    object [z] once for each object removed. *)
Lemma self_destruct_sweep w now a m0 : forall n R, length R <= n ->
  forall kept spare z m tr av,
    heap m = heap m0 ->
    arrays m !! a = Some (kept ++ R ++ replicate (length kept) z ++ spare) ->
    objects m = Header a (length kept + length R) ->
    list.last R = Some z ->
    Forall (good_object m0) (kept ++ R) ->
    NoDup (entity_at m0 <$> (kept ++ R)) ->
    length av = 2 ->
    exists st',
      tick_objects w self_destruct now [worldType; entityType] a
        (seq (length kept) (length kept + length R)) av (State m tr) = Some (tt, st')
      /\ collection (st_mem st') = Some (kept ++ survivors R)
      /\ heap (st_mem st') = heap m0.
Proof.
  induction n as [|n IH]; intros R Hlen kept spare z m tr av
    Hheap Ha Hobj Hlast Hgood Hnd Hav.
  { destruct R; [discriminate|simpl in Hlen; lia]. }
  destruct R as [|x R1]; [discriminate|].
  pose proof (proj1 (Forall_app _ _ _) Hgood) as [Hgkept HgR].
  inversion HgR as [|? ? (ox & csx & Hox & Hcsx & _) HgR1]; subst.
  pose proof (distinct_others m0 kept x R1 ox Hnd Hgkept Hox) as Hothers.
  assert (Hox' : object_at m x = Some ox)
    by (rewrite (object_at_same_heap _ _ _ Hheap); exact Hox).
  pose proof (RemoveObject_shifts m a kept x R1 z (replicate (length kept) z ++ spare)
                ox Ha Hobj Hlast Hox'
                (other_object_same_heap m m0 _ _ Hheap Hothers)) as Hrm.
  set (cells1 := kept ++ R1 ++ z :: replicate (length kept) z ++ spare) in Hrm.
  set (m1 := Mem (gid m) (heap m) (<[a := cells1]> (arrays m))
                 (Header a (length kept + length R1))) in Hrm.
  assert (Ha1 : arrays m1 !! a = Some cells1).
  { unfold m1. cbn [arrays]. apply list_lookup_insert_eq.
    eapply lookup_lt_Some. exact Ha. }
  assert (Hheap1 : heap m1 = heap m0) by exact Hheap.
  assert (Hload1 : load m1 (objects m1)
                   = Some (Slice cells1 (length kept + length R1))).
  { unfold load. change (objects m1) with (Header a (length kept + length R1)).
    cbn [h_arr h_len]. rewrite Ha1. reflexivity. }
  replace (length kept + length (x :: R1)) with (S (length kept + length R1))
    by (simpl; lia).
  cbn [seq].
  rewrite (self_destruct_visit w now a m tr _ (length kept) _ av x ox csx m1 Ha
             (list_lookup_middle _ _ _ _ eq_refl) Hox' Hcsx Hav Hrm).
  destruct R1 as [|y R2].
  - (* the last object was visited in place *)
    injection Hlast as <-.
    destruct (self_destruct_stale w now a m1 cells1 x ox csx
                (Slice cells1 (length kept + 0)) Ha1
                ltac:(rewrite (object_at_same_heap _ _ _ Hheap1); exact Hox) Hcsx
                Hload1) with (c := length kept + 0) (i := S (length kept))
      (av := [Some ValueOf_world; Some (ValueOf_entity (entity ox))])
      (tr := tr ++ [EvCall x [ValueOf_world; ValueOf_entity (entity ox)] []])
      as [tr' Hrun].
    + unfold elems, cells1. cbn [arr len app]. rewrite Nat.add_0_r, take_app_length.
      apply (other_object_same_heap m1 m0 _ _ Hheap1 Hothers).
    + intros j Hj. unfold cells1. cbn [app].
      replace (kept ++ x :: replicate (length kept) x ++ spare)
        with ((kept ++ [x]) ++ replicate (length kept) x ++ spare)
        by (rewrite <- app_assoc; reflexivity).
      apply stale_cells. rewrite length_app. simpl. lia.
    + reflexivity.
    + exists (State m1 tr'). split; [exact Hrun|]. split; [|exact Hheap1].
      unfold collection, load, m1. cbn [objects arrays h_arr h_len st_mem].
      rewrite list_lookup_insert_eq by (eapply lookup_lt_Some; exact Ha).
      cbn [fmap option_fmap option_map mbind option_bind]. unfold elems, cells1.
      cbn [arr len app survivors]. rewrite Nat.add_0_r, take_app_length, app_nil_r.
      reflexivity.
  - rewrite last_cons_cons in Hlast.
    inversion HgR1 as [|? ? (oy & csy & Hoy & Hcsy & _) HgR2]; subst.
    destruct R2 as [|r R3].
    + (* two objects were left: the second is visited through its copy *)
      injection Hlast as <-.
      assert (Hyothers : Forall (other_object m0 (entity oy)) kept).
      { assert (Hall : Forall (other_object m0 (entity oy)) (kept ++ [x])).
        { apply (distinct_others m0 (kept ++ [x]) y [] oy).
          - rewrite <- app_assoc. exact Hnd.
          - apply Forall_app. split; [exact Hgkept|].
            constructor; [|constructor]. exists ox, csx. auto using le_n.
            repeat split; auto. inversion HgR as [|? ? (o' & cs' & Ho' & Hcs' & Hc') _].
            rewrite Hox in Ho'. injection Ho' as <-. exact Hc'.
          - exact Hoy. }
        apply Forall_app in Hall. exact (proj1 Hall). }
      assert (Hoy1 : object_at m1 y = Some oy)
        by (rewrite (object_at_same_heap _ _ _ Hheap1); exact Hoy).
      pose proof (RemoveObject_shifts m1 a kept y [] y
                    (y :: replicate (length kept) y ++ spare) oy Ha1 eq_refl eq_refl Hoy1
                    (other_object_same_heap m1 m0 _ _ Hheap1 Hyothers)) as Hrm2.
      set (m2 := Mem (gid m1) (heap m1) (<[a := cells1]> (arrays m1))
                     (Header a (length kept + 0))).
      change (RemoveObject (entity oy) m1 = Some (tt, m2)) in Hrm2.
      assert (Ha2 : arrays m2 !! a = Some cells1).
      { unfold m2. cbn [arrays]. apply list_lookup_insert_eq.
        eapply lookup_lt_Some. exact Ha1. }
      assert (Hload2 : load m2 (objects m2) = Some (Slice cells1 (length kept + 0))).
      { unfold load. change (objects m2) with (Header a (length kept + 0)).
        cbn [h_arr h_len]. rewrite Ha2. reflexivity. }
      replace (length kept + length [y]) with (S (length kept + 0)) by (simpl; lia).
      cbn [seq].
      assert (Hcopy : cells1 !! S (length kept) = Some y).
      { unfold cells1. cbn [app]. rewrite (cons_middle y kept), app_assoc.
        apply list_lookup_middle. rewrite length_app. simpl. lia. }
      rewrite (self_destruct_visit w now a m1 _ cells1 (S (length kept)) _
                 [Some ValueOf_world; Some (ValueOf_entity (entity ox))] y oy csy m2
                 Ha1 Hcopy Hoy1 Hcsy eq_refl Hrm2).
      destruct (self_destruct_stale w now a m2 cells1 y oy csy
                  (Slice cells1 (length kept + 0)) Ha2 Hoy1 Hcsy Hload2)
        with (c := length kept + 0) (i := S (S (length kept)))
        (av := [Some ValueOf_world; Some (ValueOf_entity (entity oy))])
        (tr := (tr ++ [EvCall x [ValueOf_world; ValueOf_entity (entity ox)] []])
                 ++ [EvCall y [ValueOf_world; ValueOf_entity (entity oy)] []])
        as [tr' Hrun].
      * unfold elems, cells1. cbn [arr len app]. rewrite Nat.add_0_r, take_app_length.
        apply (other_object_same_heap m2 m0 _ _ Hheap1 Hyothers).
      * intros j Hj. unfold cells1. cbn [app].
        replace (kept ++ y :: y :: replicate (length kept) y ++ spare)
          with ((kept ++ [y; y]) ++ replicate (length kept) y ++ spare)
          by (rewrite <- app_assoc; reflexivity).
        apply stale_cells. rewrite length_app. simpl. lia.
      * reflexivity.
      * exists (State m2 tr'). split; [exact Hrun|]. split; [|exact Hheap1].
        unfold collection, load, m2. cbn [objects arrays h_arr h_len st_mem].
        rewrite list_lookup_insert_eq by (eapply lookup_lt_Some; exact Ha1).
        cbn [fmap option_fmap option_map mbind option_bind]. unfold elems, cells1.
        cbn [arr len app survivors]. rewrite Nat.add_0_r, take_app_length, app_nil_r.
        reflexivity.
    + (* more objects are left: the sweep goes on behind the second *)
      rewrite last_cons_cons in Hlast.
      destruct (IH (r :: R3) ltac:(simpl in *; lia) (kept ++ [y]) spare z m1
                  (tr ++ [EvCall x [ValueOf_world; ValueOf_entity (entity ox)] []])
                  [Some ValueOf_world; Some (ValueOf_entity (entity ox))] Hheap1)
        as (st' & Hrun & Hcoll & Hh).
      * rewrite Ha1. f_equal. unfold cells1. rewrite length_app. cbn [length].
        rewrite Nat.add_1_r. cbn [replicate app]. rewrite <- !app_assoc. reflexivity.
      * unfold m1. cbn [objects]. f_equal. rewrite length_app. simpl. lia.
      * exact Hlast.
      * rewrite <- app_assoc. apply Forall_app. split; [exact Hgkept|exact HgR1].
      * eapply sublist_NoDup; [exact Hnd|]. apply fmap_sublist.
        rewrite <- app_assoc. apply sublist_app; [reflexivity|].
        apply sublist_cons. reflexivity.
      * reflexivity.
      * exists st'. split; [|split; [|exact Hh]].
        -- rewrite <- Hrun. f_equal. rewrite length_app. cbn [length]. f_equal; lia.
        -- rewrite Hcoll. cbn [survivors]. rewrite <- app_assoc. reflexivity.
Qed.

(** X23.  A sweep of a system that removes the object it is called for, over a
    collection of objects with distinct identifiers: each removal moves
    the later objects down in the array the sweep is reading, so the
    object behind the removed one is passed over, and the copy the last
    object leaves behind is visited again.  Afterwards the collection
    holds the objects that were at the odd indices, except the last
    object of the collection, which is removed in any case. *)
Theorem self_destruct_survivors (w : World) (now : Time) (m : mem)
    (tr : list event) (s : slice (option ptr)) :
  load m (objects m) = Some s ->
  len s <= cap s ->
  Forall (good_object m) (elems s) ->
  NoDup (entity_at m <$> elems s) ->
  exists st',
    tick self_destruct w now (State m tr) = Some (tt, st')
    /\ collection (st_mem st') = Some (survivors (elems s))
    /\ heap (st_mem st') = heap m.
Proof.
  intros Hload Hcap Hgood Hnd.
  pose proof (length_elems s Hcap) as Hlen.
  unfold load in Hload.
  destruct (arrays m !! h_arr (objects m)) as [cells|] eqn:Ha; [|discriminate].
  cbn [mbind option_bind] in Hload. injection Hload as <-.
  cbn [arr len] in *.
  unfold tick. cbn [self_destruct Func_type signature underlying].
  unfold bindM at 1. cbn [try retM fst length replicate].
  unfold bindM at 1, getM. cbn [st_mem].
  destruct (list.last (elems (Slice cells (h_len (objects m))))) as [z|] eqn:Hlast.
  - destruct (self_destruct_sweep w now (h_arr (objects m)) m
                (length (elems (Slice cells (h_len (objects m)))))
                (elems (Slice cells (h_len (objects m)))) (le_n _)
                [] (drop (h_len (objects m)) cells) z m tr [None; None] eq_refl)
      as (st' & Hrun & Hcoll & Hh); auto.
    + rewrite Ha. cbn [app length replicate]. unfold elems. cbn [arr len].
      rewrite take_drop. reflexivity.
    + cbn [length Nat.add]. rewrite Hlen. destruct (objects m). reflexivity.
    + exists st'. cbn [length Nat.add app] in Hrun, Hcoll. rewrite Hlen in Hrun.
      auto.
  - apply last_None in Hlast. rewrite Hlast in *. cbn [length] in Hlen.
    rewrite <- Hlen. exists (State m tr). split; [reflexivity|].
    split; [|reflexivity]. cbn [st_mem survivors].
    unfold collection, load. rewrite Ha.
    cbn [mbind option_bind fmap option_fmap option_map].
    rewrite <- Hlen. reflexivity.
Qed.

(* ===================================================================== *)
(** ** Sweeps of systems that only compute *)
(* ===================================================================== *)








End World.

(* ===================================================================== *)
(** ** The tests, run *)
(* ===================================================================== *)

(** [TestMovement/once]: Position 1 and Velocity 2 give Position 3. *)
Example movement_once :
  (fun r => Components <$> heap (st_mem r.2)) <$>
    run no_methods movement with_callback 0%Z (State mover_world [])
  = Some [[Some (position 3); Some (velocity 2)]].
Proof. reflexivity. Qed.

(** [TestMovement/three times]: three timestamps give Position 7. *)
Example movement_three_times :
  (fun r => Components <$> heap (st_mem r.2)) <$>
    run no_methods
      {| Func_type := Func_type movement; Func := Func movement;
         Func_name := Func_name movement; Name := Name movement;
         Ticker := Some [1; 2; 3]%Z |}
      with_callback 0%Z (State mover_world [])
  = Some [[Some (position 7); Some (velocity 2)]].
Proof. reflexivity. Qed.

(** [TestError] as written: the error is reported once, and Position(0),
    returned along with the error, is written back. *)
Example failing_movement_writes_back :
  run no_methods failing_movement with_callback 0%Z (State mover_world [])
  = Some (tt,
      State (Mem 1 [mkObject 1%Z [Some (position 0); Some (velocity 2)]]
                 [[Some 0]] (Header 0 1))
            [EvCall (Some 0) [position 1; velocity 2]
                    [position 0; Val errorType cannotMove];
             EvOnError "movement" [Some (position 1); Some (velocity 2)]
                    cannotMove]).
Proof. reflexivity. Qed.

(** [Example_failingSystem]: without an override the name is the symbol
    name cut after its last dot, and without a callback the error is
    logged. *)
Example failing_system_logged :
  st_trace <$> (snd <$>
    run no_methods
      {| Func_type := FuncOf [] [errorType];
         Func := fun _ => retM [Val errorType (DErr "something went wrong")];
         Func_name := "github.com/dradtke/ecs-go_test.FailingSystem";
         Name := EmptyString; Ticker := None |}
      {| OnError := false; systems := [] |} 0%Z (State empty_object_world []))
  = Some [EvCall (Some 0) [] [Val errorType (DErr "something went wrong")];
          EvLogSystemError "FailingSystem" (DErr "something went wrong")].
Proof. reflexivity. Qed.

(** [TestAddAndRemoveComponents]: a velocity added to [Position(1)] is
    found, and gone after its removal. *)
Example add_and_remove_components :
  let player1 := AddComponent doubling (mkObject 1%Z [Some (position 1)])
                   (Some (velocity 2)) in
  Component (mkObject 1%Z [Some (position 1)]) (Some (velocity 0)) = None
  /\ Component player1 (Some (velocity 0)) = Some (velocity 2)
  /\ (fun ob => Component ob (Some (velocity 0))) <$>
       RemoveComponent doubling player1 (Some (velocity 0)) = Some None.
Proof. repeat split. Qed.

(** [TestQueryAll], with two targets: calling the iterator again from the
    index after each match visits every target once and then reports the
    length of the collection and false. *)
Example query_all :
  let w3 := Mem 3 [mkObject 1%Z [Some player]; mkObject 2%Z [Some target];
                   mkObject 3%Z [Some target]]
                [[Some 0; Some 1; Some 2]] (Header 0 3) in
  objectIter no_methods targetIter_from [ValueOf_int 0] w3
  = Some [ValueOf_int 1; ValueOf_entity 2%Z; target; ValueOf_bool true]
  /\ objectIter no_methods targetIter_from [ValueOf_int 2] w3
     = Some [ValueOf_int 2; ValueOf_entity 3%Z; target; ValueOf_bool true]
  /\ objectIter no_methods targetIter_from [ValueOf_int 3] w3
     = Some [ValueOf_int 3; Zero entityType; Zero Target; ValueOf_bool false].
Proof. repeat split. Qed.

(** A system that removes its own entity, on three objects: the deletion
    shifts the array the sweep is reading, so the second object is never
    visited and the third is visited twice. *)
Example removal_during_sweep :
  (fun r => called_objects (st_trace r.2)) <$>
    tick no_methods (self_destruct doubling) with_callback 0%Z
      (State three_objects [])
  = Some [Some 0; Some 2; Some 2].
Proof. reflexivity. Qed.

(* ===================================================================== *)
(** ** The theorems at the worlds of the tests *)
(* ===================================================================== *)

Lemma error_only_system_reported_once_witness :
  run no_methods error_only with_callback 0%Z (State mover_world [])
  = Some (tt, State mover_world
      [EvCall (Some 0) [position 1; velocity 2] [Val errorType cannotMove];
       EvOnError "movement" [Some (position 1); Some (velocity 2)] cannotMove]).
Proof.
  apply (error_only_system_reported_once no_methods with_callback error_only
           0%Z mover_world [] 0 [Some 0] 0
           (mkObject 1%Z [Some (position 1); Some (velocity 2)])
           [errorType] cannotMove);
    try reflexivity; discriminate.
Defined.




Lemma makeObjectIter_fails_iff_witness :
  (exists err, makeObjectIter one_output_iter = Some (inr err))
  /\ exists av',
       tick_object no_methods with_callback needs_one_output_iter 0%Z
         [one_output_iter] (Some 0) [None] (State empty_object_world [])
       = Some (av', State empty_object_world
            [EvLogIterFailed "invalid signature: at least two return values expected"]).
Proof.
  destruct (makeObjectIter_fails_iff no_methods one_output_iter [] [boolType] eq_refl)
    as [Hiff Hsweep].
  split.
  - apply Hiff. right. left. simpl. lia.
  - destruct (Hsweep with_callback needs_one_output_iter 0%Z empty_object_world []
                0 0 [] [Some 0] (Some 0) (mkObject 1%Z []) [] [] [] []
                "invalid signature: at least two return values expected" [None]
                eq_refl eq_refl eq_refl eq_refl eq_refl eq_refl eq_refl)
      as (av' & Hobject & _).
    exists av'. exact Hobject.
Defined.


Lemma special_only_system_called_once_per_object_witness :
  exists st',
    tick no_methods saveTime with_callback 0%Z (State empty_object_world [])
    = Some (tt, st')
    /\ called_objects (st_trace st') = [Some 0].
Proof.
  apply (special_only_system_called_once_per_object no_methods with_callback
           saveTime 0%Z empty_object_world [] [timeType] []
           (Slice [Some 0] 1) eq_refl).
  - constructor; [|constructor]. right. right. left. reflexivity.
  - reflexivity.
  - apply le_n.
  - constructor; [|constructor]. exists (mkObject 1%Z []), [].
    split; [reflexivity|]. split; [reflexivity|apply le_n].
  - intros args m0 Hkept. exists [], m0. split; [reflexivity|exact Hkept].
Defined.

Lemma RemoveObject_frame_witness :
  RemoveObject doubling 7%Z two_objects = Some (tt, two_objects)
  /\ exists m', RemoveObject doubling 1%Z two_objects = Some (tt, m')
       /\ collection m' = Some [Some 1]
       /\ heap m' = heap two_objects /\ gid m' = gid two_objects.
Proof.
  split.
  - destruct (RemoveObject_frame doubling two_objects 7%Z (Slice [Some 0; Some 1] 2)
                eq_refl (le_n 2)) as [Habsent _].
    apply Habsent. constructor; [|constructor; [|constructor]].
    + exists (mkObject 1%Z []). split; [reflexivity|discriminate].
    + exists (mkObject 2%Z []). split; [reflexivity|discriminate].
  - destruct (RemoveObject_frame doubling two_objects 1%Z (Slice [Some 0; Some 1] 2)
                eq_refl (le_n 2)) as [_ Hpresent].
    apply (Hpresent [] (Some 0) [Some 1] (mkObject 1%Z [])); try reflexivity.
    constructor.
Defined.

Lemma AddObject_GetObject_witness :
  exists m',
    AddObject doubling (Some 2)
      (Mem 3 (heap three_objects) [[Some 0; Some 1]] (Header 0 2))
    = Some (3%Z, m')
    /\ GetObject 3%Z m' = Some (Some 2, m')
    /\ collection m' = Some [Some 0; Some 1; Some 2]
    /\ heap m' = heap three_objects.
Proof.
  apply (AddObject_GetObject doubling
           (Mem 3 (heap three_objects) [[Some 0; Some 1]] (Header 0 2))
           (Slice [Some 0; Some 1] 2) 2 (mkObject 3%Z []) eq_refl (le_n 2) eq_refl).
  constructor; [|constructor; [|constructor]]; right.
  - exists (mkObject 1%Z []). split; [reflexivity|discriminate].
  - exists (mkObject 2%Z []). split; [reflexivity|discriminate].
Defined.

(* ===================================================================== *)
(** ** Where the specification and the code part *)
(* ===================================================================== *)

(** C6 as worded.  A function type with a string input violates the
    worded contract, yet [makeObjectIter] builds its iterator: the input's
    kind is only looked at when the iterator is called. *)
Lemma makeObjectIter_accepts_string_input :
  ~ (forall t ins outs,
       signature t = Some (ins, outs) ->
       ((exists err, makeObjectIter t = Some (inr err))
        <-> violates_shape_contract ins outs)).
Proof.
  intros Hclaim.
  destruct (Hclaim string_input_iter [stringType] [Position; boolType] eq_refl)
    as [_ Hfails].
  destruct Hfails as [err Herr]; [|discriminate Herr].
  right. left. exists stringType. split; [|reflexivity].
  apply list_elem_of_In. simpl. auto.
Qed.


(** C8 as worded.  A system that asks for no component, but for a function
    type [makeObjectIter] turns down, is never called: on a world of one
    object the sweep ends with a log line and no call. *)
Lemma system_with_rejected_iterator_never_called :
  ~ (forall w s now m tr argTypes outs c,
       signature (Func_type s) = Some (argTypes, outs) ->
       Forall (fun t => ~ data_param t) argTypes ->
       load m (objects m) = Some c ->
       len c <= cap c ->
       Forall (good_object m) (elems c) ->
       (forall args m0, collection_kept (h_arr (objects m)) (elems c) m0 ->
          exists rs m1, Func s args m0 = Some (rs, m1)
            /\ collection_kept (h_arr (objects m)) (elems c) m1) ->
       exists st',
         tick no_methods s w now (State m tr) = Some (tt, st')
         /\ called_objects (st_trace st') = called_objects tr ++ elems c).
Proof.
  intros Hclaim.
  destruct (Hclaim with_callback needs_one_output_iter 0%Z empty_object_world []
              [one_output_iter] [] (Slice [Some 0] 1) eq_refl)
    as (st' & Hrun & Hcalled).
  - constructor; [|constructor]. intros (_ & _ & _ & Hk). apply Hk. reflexivity.
  - reflexivity.
  - apply le_n.
  - constructor; [|constructor]. exists (mkObject 1%Z []), [].
    split; [reflexivity|]. split; [reflexivity|apply le_n].
  - intros args m0 Hkept. exists [], m0. split; [reflexivity|exact Hkept].
  - assert (Hsweep : tick no_methods needs_one_output_iter with_callback 0%Z
                       (State empty_object_world [])
                     = Some (tt, State empty_object_world
                          [EvLogIterFailed
                             "invalid signature: at least two return values expected"]))
      by reflexivity.
    rewrite Hsweep in Hrun. injection Hrun as <-. discriminate Hcalled.
Qed.

(* ===================================================================== *)
(** ** Instances of the further properties *)
(* ===================================================================== *)

Lemma two_objects_ok : world_ok two_objects.
Proof.
  split; [discriminate|]. split.
  - repeat constructor; simpl; lia.
  - exists (Slice [Some 0; Some 1] 2). split; [reflexivity|]. split; [apply le_n|].
    constructor; [exists 0; split; [reflexivity|simpl; lia]|].
    constructor; [exists 1; split; [reflexivity|simpl; lia]|constructor].
Qed.

Lemma target_world_good :
  Forall (good_object target_world) [Some 0; Some 1].
Proof.
  constructor; [|constructor; [|constructor]].
  - exists (mkObject 1%Z [Some player; Some (position 1)]), [player; position 1].
    split; [reflexivity|]. split; [reflexivity|apply le_n].
  - exists (mkObject 2%Z [Some target; Some (position 5)]), [target; position 5].
    split; [reflexivity|]. split; [reflexivity|apply le_n].
Qed.

Lemma GetObject_sound_witness :
  two_objects = two_objects
  /\ exists obs, collection two_objects = Some obs
       /\ exists pre post o,
            obs = pre ++ Some 1 :: post
            /\ heap two_objects !! 1 = Some o /\ entity o = 2%Z
            /\ Forall (other_object two_objects 2%Z) pre.
Proof.
  exact (GetObject_sound two_objects two_objects 2%Z (Some 1) eq_refl).
Defined.

Lemma RemoveObject_then_GetObject_witness :
  exists m', RemoveObject doubling 1%Z two_objects = Some (tt, m')
    /\ GetObject 1%Z m' = Some (None, m').
Proof.
  assert (Hothers : Forall (other_object two_objects 1%Z) ([] ++ [Some 1])).
  { constructor; [|constructor].
    exists (mkObject 2%Z []). split; [reflexivity|discriminate]. }
  exact (RemoveObject_then_GetObject doubling two_objects 1%Z
           (Slice [Some 0; Some 1] 2) [] (Some 0) [Some 1] (mkObject 1%Z [])
           eq_refl (le_n 2) eq_refl Hothers eq_refl eq_refl).
Defined.

Lemma RemoveObject_keeps_other_lookups_witness :
  exists m', RemoveObject doubling 1%Z two_objects = Some (tt, m')
    /\ fst <$> GetObject 2%Z m' = fst <$> GetObject 2%Z two_objects.
Proof.
  assert (Hne : 2%Z <> 1%Z) by discriminate.
  exact (RemoveObject_keeps_other_lookups doubling two_objects 1%Z 2%Z
           (Slice [Some 0; Some 1] 2) [] (Some 0) [Some 1] (mkObject 1%Z [])
           eq_refl (le_n 2) eq_refl (Forall_nil _) eq_refl eq_refl Hne).
Defined.

Lemma AddObject_keeps_lookups_witness :
  exists m', AddObject doubling (Some 0) two_objects = Some (1%Z, m')
    /\ forall e' q, GetObject e' two_objects = Some (Some q, two_objects) ->
         GetObject e' m' = Some (Some q, m').
Proof.
  exact (AddObject_keeps_lookups doubling two_objects (Slice [Some 0; Some 1] 2) 0
           (mkObject 1%Z []) eq_refl (le_n 2) eq_refl).
Defined.

Lemma NewObject_AddObject_GetObject_witness :
  exists p m',
    (ob <- NewObject [Some (position 1)] ;;
     e <- AddObject doubling ob ;; retM (ob, e)) two_objects
    = Some ((Some p, 3%Z), m')
    /\ GetObject 3%Z m' = Some (Some p, m')
    /\ (forall e' q, GetObject e' two_objects = Some (Some q, two_objects) ->
          GetObject e' m' = Some (Some q, m'))
    /\ world_ok m'.
Proof.
  exact (NewObject_AddObject_GetObject doubling two_objects [Some (position 1)]
           two_objects_ok eq_refl).
Defined.

Lemma AddComponent_then_Component_witness :
  Components (AddComponent doubling (mkObject 1%Z [Some (position 1)]) (Some (velocity 2)))
  = [Some (position 1); Some (velocity 2)]
  /\ Component (AddComponent doubling (mkObject 1%Z [Some (position 1)]) (Some (velocity 2)))
       (Some (velocity 0))
     = Some (velocity 2).
Proof.
  destruct (AddComponent_then_Component doubling (mkObject 1%Z [Some (position 1)])
              (Some (velocity 2)) (le_n 1)) as (Hcs & _ & _ & Hnew).
  split; [exact Hcs|]. apply Hnew; [|reflexivity].
  constructor; [discriminate|constructor].
Defined.

Lemma AddComponent_then_RemoveComponent_witness :
  exists ob',
    RemoveComponent doubling
      (AddComponent doubling (mkObject 1%Z [Some (position 1)]) (Some (velocity 2)))
      (Some (velocity 0)) = Some ob'
    /\ entity ob' = 1%Z /\ Components ob' = [Some (position 1)].
Proof.
  apply (AddComponent_then_RemoveComponent doubling (mkObject 1%Z [Some (position 1)])
           (Some (velocity 2)) (Some (velocity 0)) (le_n 1) eq_refl).
  constructor; [discriminate|constructor].
Defined.

Lemma RemoveComponent_absent_witness :
  RemoveComponent doubling (mkObject 1%Z [Some (position 1)]) (Some (velocity 0))
  = Some (mkObject 1%Z [Some (position 1)]).
Proof.
  apply (RemoveComponent_absent doubling (mkObject 1%Z [Some (position 1)])
           (Some (velocity 0)) (le_n 1)).
  constructor; [discriminate|constructor].
Defined.

Lemma RemoveComponent_single_witness :
  exists ob',
    RemoveComponent doubling (mkObject 1%Z [Some (velocity 2); Some (position 1)])
      (Some (position 0)) = Some ob'
    /\ entity ob' = 1%Z /\ Components ob' = [Some (velocity 2)].
Proof.
  apply (RemoveComponent_single doubling
           (mkObject 1%Z [Some (velocity 2); Some (position 1)]) (Some (position 0))
           [Some (velocity 2)] (Some (position 1)) [] (le_n 2) eq_refl eq_refl).
  constructor; [discriminate|constructor].
Defined.

Lemma getComponentValue_is_Component_witness :
  getComponentValue (mkObject 1%Z [Some (position 1); Some (velocity 2)]) Velocity
  = Some (Component (mkObject 1%Z [Some (position 1); Some (velocity 2)])
            (Some (velocity 0))).
Proof.
  exact (getComponentValue_is_Component
           (mkObject 1%Z [Some (position 1); Some (velocity 2)])
           [position 1; velocity 2] Velocity (DInt 0) eq_refl).
Defined.

Lemma NewObject_fresh_witness :
  exists p m', NewObject [] two_objects = Some (Some p, m')
    /\ heap m' = heap two_objects ++ [mkObject 3%Z []]
    /\ heap m' !! p = Some (mkObject 3%Z [])
    /\ Forall (fun o => entity o <> 3%Z) (heap two_objects)
    /\ gid m' = 3%Z.
Proof.
  apply (NewObject_fresh two_objects []).
  - split; [discriminate|reflexivity].
  - repeat constructor; simpl; lia.
Defined.

Lemma nil_component_aborts_sweep_witness :
  tick_objects no_methods with_callback movement 0%Z [Position; Velocity] 0 [0]
    [None; None] (State nil_component_world []) = None
  /\ forall rep : value,
       Component (mkObject 1%Z [None; Some (position 1)]) (Some rep)
       = Component_loop (Some (vtype rep)) [Some (position 1)].
Proof.
  apply (nil_component_aborts_sweep no_methods with_callback movement 0%Z
           nil_component_world [] 0 0 [] [Some 0] (Some 0)
           (mkObject 1%Z [None; Some (position 1)]) [] [Some (position 1)]
           Position [Velocity] [None; None] eq_refl eq_refl eq_refl eq_refl).
  - repeat split; discriminate.
  - constructor.
Defined.





Lemma objectIter_returns_iff_offset_in_range_witness :
  is_Some (objectIter no_methods targetIter_from [ValueOf_int 3] target_world)
  <-> (0 <= 3 <= Z.of_nat 2)%Z.
Proof.
  exact (objectIter_returns_iff_offset_in_range no_methods targetIter_from
           [intType; entityType; Target] [ValueOf_int 3] (ValueOf_int 3) 3%Z
           target_world (Slice [Some 0; Some 1] 2) eq_refl eq_refl eq_refl eq_refl
           (le_n 2) target_world_good).
Defined.

Lemma query_loop_enumerates_witness :
  query_loop no_methods 3 targetIter_from 0%Z target_world
  = Some (true, [[ValueOf_int 1; ValueOf_entity 2%Z; target; ValueOf_bool true]]).
Proof.
  apply (query_loop_enumerates no_methods targetIter_from [entityType; Target]
           target_world (Slice [Some 0; Some 1] 2) 3 eq_refl eq_refl (le_n 2)).
  - reflexivity.
  - exact target_world_good.
  - apply le_n.
Defined.

Lemma tick_on_empty_collection_witness :
  tick no_methods movement with_callback 0%Z (State empty_world [])
  = Some (tt, State empty_world []).
Proof.
  exact (tick_on_empty_collection no_methods with_callback movement 0%Z empty_world []
           (Slice [] 0) eq_refl eq_refl).
Defined.

Lemma three_objects_good :
  Forall (good_object three_objects) [Some 0; Some 1; Some 2].
Proof.
  constructor; [|constructor; [|constructor; [|constructor]]].
  - exists (mkObject 1%Z []), []. split; [reflexivity|]. split; [reflexivity|apply le_n].
  - exists (mkObject 2%Z []), []. split; [reflexivity|]. split; [reflexivity|apply le_n].
  - exists (mkObject 3%Z []), []. split; [reflexivity|]. split; [reflexivity|apply le_n].
Qed.

Lemma three_objects_distinct :
  NoDup (entity_at three_objects <$> [Some 0; Some 1; Some 2]).
Proof.
  change (NoDup [Some 1%Z; Some 2%Z; Some 3%Z]).
  repeat (constructor;
          [intros H; repeat (apply elem_of_cons in H as [H|H]; [discriminate|]);
           inversion H|]).
  constructor.
Qed.

Lemma self_destruct_survivors_witness :
  exists st',
    tick no_methods (self_destruct doubling) with_callback 0%Z (State three_objects [])
    = Some (tt, st')
    /\ collection (st_mem st') = Some [Some 1]
    /\ heap (st_mem st') = heap three_objects.
Proof.
  exact (self_destruct_survivors no_methods doubling with_callback 0%Z three_objects []
           (Slice [Some 0; Some 1; Some 2] 3) eq_refl (le_n 3)
           three_objects_good three_objects_distinct).
Defined.


